(** * yt_box backend: the FIFO song queuer and the RPC server around it

    A shallow embedding of [backend/song_queuer/fifo_queuer.go] (package
    [song_queue]) and of the RPC server of package [backend], followed by
    the properties of the queue, of the snapshot file and of the skip
    command, and by an interleaving model of [WaitForMoreSongs] against
    [AddSong].

    Conventions.
    - A [uint32] is an [N]; the code only compares identifiers.
    - A Go [error] is its message; [None] is the nil error.
    - A [*cmpb.Song] held by the queue is a [Song]; where the code returns
      or stores a possibly nil pointer the model has an [option Song].
    - [log.Printf] and [log.Println] calls have no counterpart. *)

From Stdlib Require Import ZArith NArith List String Ascii Strings.Byte Lia.
From stdpp Require Import base option list strings pretty gmap.

Local Open Scope string_scope.
Local Open Scope list_scope.

(** ** Messages of package [proto/common] and [proto/backend] *)

Abbreviation uint32 := N (only parsing).
Abbreviation bytes := (list byte) (only parsing).
Abbreviation error := string (only parsing).

(** Modelled from the spec: the declaration of the [Song] message is
    generated code that is not among the sources. Its fields are the six
    that [loadPlaylistFromFile] copies, which are the six the persisted
    state layout lists (title, song id, username, user id, service name,
    service-specific id). *)
Record Song := mkSong {
  Title : string;
  SongId : uint32;
  Username : string;
  UserId : uint32;
  Service : string;
  ServiceId : string;
}.

(** [bepb.Playlist{Songs: songs}] *)
Record Playlist := mkPlaylist { Songs : list Song }.

(** [bepb.Error{Success, Message}] *)
Record Error := mkError { Success : bool; Message : string }.

(** [bepb.User{Username, UserId}] *)
Record User := mkUser { user_Username : string; user_UserId : uint32 }.

(** [bepb.Submission{Link, UserId}] *)
Record Submission := mkSubmission { Link : string; sub_UserId : uint32 }.

(** [bepb.FilePath{Path}] *)
Record FilePath := mkFilePath { Path : string }.

(** [bepb.Eviction{SongId, UserId}] *)
Record Eviction := mkEviction { ev_SongId : uint32; ev_UserId : uint32 }.

Inductive CommandType := CommandType_Next | CommandType_Pause | CommandType_Play.

(** [bepb.PlayerControl{Command, Song}]; [ctl_Song] is a pointer that may
    be nil. *)
Record PlayerControl := mkPlayerControl {
  Command : CommandType;
  ctl_Song : option Song;
}.

(** The zero value [&cmpb.Song{}]. *)
Definition emptySong : Song := mkSong "" 0 "" 0 "" "".

(** ** The file system seen through [ioutil]

    [files] maps a path to the content of the file there; a write to a
    path of [unwritable] fails and leaves the file as it was. *)
Record FileSystem := mkFileSystem {
  files : gmap string bytes;
  unwritable : gset string;
}.

(** [ioutil.WriteFile(path, out, 0644)] *)
Definition WriteFile (path : string) (out : bytes) (fs : FileSystem)
  : FileSystem * option error :=
  if decide (path ∈ unwritable fs)
  then (fs, Some ("open " +:+ path +:+ ": permission denied"))
  else (mkFileSystem (<[path := out]> (files fs)) (unwritable fs), None).

(** [ioutil.ReadFile(file)] *)
Definition ReadFile (file : string) (fs : FileSystem) : bytes + error :=
  match files fs !! file with
  | Some content => inl content
  | None => inr ("open " +:+ file +:+ ": no such file or directory")
  end.

(** [proto.Marshal] and [proto.Unmarshal] on a [Playlist]: the wire format
    belongs to the protobuf library, which the program takes as given. *)
Class ProtoCodec := {
  Marshal : Playlist → bytes + error;
  Unmarshal : bytes → Playlist + error;
}.

(** ** Package [song_queue]: the first-in-first-out queuer *)
Module song_queue.

(** The state data of the queue. The three locks and the condition
    variable carry no data; they appear in [Module goroutines]. *)
Record FifoQueuer := mkFifoQueuer {
  playQueue : list Song;        (* the playlist of songs, front first *)
  nowPlaying : option Song;     (* the currently playing song *)
}.

(** Adds a song to the queue: [PushBack]. The [Broadcast] that follows
    when the length has become 1 changes no data. *)
Definition AddSong (song : Song) (fifo : FifoQueuer) : FifoQueuer :=
  mkFifoQueuer (playQueue fifo ++ [song]) (nowPlaying fifo).

(** Initializes the queue: a new list; [nowPlaying] is not assigned. *)
Definition Init (fifo : FifoQueuer) : FifoQueuer :=
  mkFifoQueuer [] (nowPlaying fifo).

(** [new(FifoQueuer)] followed by [Init]: [nowPlaying] is nil. *)
Definition NewFifoQueuer : FifoQueuer :=
  Init (mkFifoQueuer [] None).

(** Returns the length of the queue. *)
Definition Len (fifo : FifoQueuer) : Z :=
  Z.of_nat (length (playQueue fifo)).

(** Returns the data for the currently playing song. *)
Definition NowPlaying (fifo : FifoQueuer) : option Song :=
  nowPlaying fifo.

(** Returns a list of songs in the queue, front to back. *)
Definition GetPlaylist (fifo : FifoQueuer) : Playlist :=
  mkPlaylist (playQueue fifo).

(** Pops the next song off the queue and returns it. *)
Definition PopQueue (fifo : FifoQueuer) : FifoQueuer * option Song :=
  let fifo := mkFifoQueuer (playQueue fifo) None in
  if (Len fifo >? 0)%Z then
    match playQueue fifo with
    | front :: rest => (mkFifoQueuer rest (Some front), Some front)
    | [] => (fifo, None)
    end
  else (fifo, None).

(** The two messages of [RemoveSong]. *)
Definition PermissionDenied (userId songId : uint32) : error :=
  "The user id " +:+ pretty userId +:+ " for song " +:+ pretty songId
    +:+ " does not match the id of the submitter".

Definition NotFound (songId : uint32) : error :=
  "Song with id " +:+ pretty songId +:+ " does not exist in the queue".

(** The loop of [RemoveSong] from element [e] on: the list with the
    element removed, if one was, and the error returned. *)
Fixpoint RemoveSong_from (songId userId : uint32) (e : list Song)
  : list Song * option error :=
  match e with
  | song :: next =>
      if (SongId song =? songId)%N then
        if (UserId song =? userId)%N
        then (next, None)
        else (e, Some (PermissionDenied userId songId))
      else
        let '(next', err) := RemoveSong_from songId userId next in
        (song :: next', err)
  | [] => ([], Some (NotFound songId))
  end.

(** Removes the identified song from the queue. Both the song id and
    the user id must match for the song to be removed. *)
Definition RemoveSong (songId userId : uint32) (fifo : FifoQueuer)
  : FifoQueuer * option error :=
  let '(q, err) := RemoveSong_from songId userId (playQueue fifo) in
  (mkFifoQueuer q (nowPlaying fifo), err).

(** Saves the playlist to a file. *)
Definition SavePlaylist `{ProtoCodec} (path : string) (fifo : FifoQueuer)
    (fs : FileSystem) : FileSystem * option error :=
  let playlist := GetPlaylist fifo in
  match Marshal playlist with
  | inr err => (fs, Some err)
  | inl out =>
      match WriteFile path out fs with
      | (fs', Some err) => (fs', Some err)
      | (fs', None) => (fs', None)
      end
  end.

End song_queue.

(** ** Package [backend]: the RPC server *)
Module backend.
Import song_queue.

Definition LogPrefix : string := "ytb-be".           (* logging prefix name *)
Definition queueSnapshot : string := "/tmp/ytbox.queue". (* location of the queue snapshot *)

(** The part of the interface [db.DbManager] that the modelled calls use.
    [AddSong] receives the pointer that the queue holds as well, so it
    returns the song as it leaves it. [GetUserById] yields the [User] of
    the user data or an error. *)
Class DbManager (Db : Type) := {
  db_AddSong : Song → Db → Song * Db;
  db_GetUserById : uint32 → Db → User + error;
}.

(** [fetchSongData(link, song)] fills in the song and may fail. *)
Class SongFetcher := {
  fetchSongData : string → Song → Song * option error;
}.

(** [sql.ErrNoRows] *)
Definition sql_ErrNoRows : error := "sql: no rows in result set".

(** The calls of [db.DbManager] that [LoginUser] makes besides
    [GetUserById]. *)
Class DbUserManager (Db : Type) := {
  db_AddUser : string → Db → (User + error) * Db;
  db_UpdateUsername : string → uint32 → Db → option error * Db;
}.

Section Server.
Context `{ProtoCodec} {Db : Type} `{DbManager Db} `{SongFetcher}.

(** The backend rpc server. The listener, the grpc server and the wait
    group carry nothing the modelled calls read.

    Modelled from the spec: [queuer.SongQueueManager], [UserCache] and
    [playerManager] are not among the sources. The queue manager wraps
    exactly one queuer and exposes its operations, so [queueMgr] is the
    queuer itself, the FIFO one (the round-robin queuer that [NewServer]
    selects is not among the sources either). The user cache is a key
    lookup from user id to username. Of the player manager only
    [sendToPlayers] is called here: [playerMgr] lists the commands handed
    to it, oldest first. [disk] is the file system of the process. *)
Record BackendServer := mkBackendServer {
  queueMgr : FifoQueuer;
  dbManager : Db;
  userCache : gmap uint32 string;
  playerMgr : list PlayerControl;
  disk : FileSystem;
}.

(** A call on the server: it returns a value and leaves a new state. *)
Definition RPC (A : Type) : Type := BackendServer → A * BackendServer.

#[export] Instance RPC_ret : MRet RPC := λ A a s, (a, s).
#[export] Instance RPC_bind : MBind RPC :=
  λ A B k m s, let '(a, s') := m s in k a s'.

Definition with_queueMgr (q : FifoQueuer) (s : BackendServer) : BackendServer :=
  mkBackendServer q (dbManager s) (userCache s) (playerMgr s) (disk s).

(** The calls on [s.queueMgr]. *)
Definition queueMgr_AddSong (song : Song) : RPC unit :=
  λ s, (tt, with_queueMgr (AddSong song (queueMgr s)) s).

Definition queueMgr_Len : RPC Z :=
  λ s, (Len (queueMgr s), s).

Definition queueMgr_NowPlaying : RPC (option Song) :=
  λ s, (NowPlaying (queueMgr s), s).

Definition queueMgr_GetPlaylist : RPC Playlist :=
  λ s, (GetPlaylist (queueMgr s), s).

Definition queueMgr_PopQueue : RPC (option Song) :=
  λ s, let '(q, song) := PopQueue (queueMgr s) in (song, with_queueMgr q s).

Definition queueMgr_RemoveSong (songId userId : uint32) : RPC (option error) :=
  λ s, let '(q, err) := RemoveSong songId userId (queueMgr s) in
       (err, with_queueMgr q s).

Definition queueMgr_SavePlaylist (path : string) : RPC (option error) :=
  λ s, let '(fs, err) := SavePlaylist path (queueMgr s) (disk s) in
       (err, mkBackendServer (queueMgr s) (dbManager s) (userCache s)
                             (playerMgr s) fs).

(** [s.dbManager.AddSong(song)]. The pointer [song] was pushed at the back
    of the queue by the call before, so what the database manager writes
    through it is seen at the back of the queue. *)
Definition dbManager_AddSong (song : Song) : RPC Song :=
  λ s, let '(song', db) := db_AddSong song (dbManager s) in
       let q := queueMgr s in
       (song', mkBackendServer
                 (mkFifoQueuer (removelast (playQueue q) ++ [song']) (nowPlaying q))
                 db (userCache s) (playerMgr s) (disk s)).

Definition dbManager_GetUserById (userId : uint32) : RPC (User + error) :=
  λ s, (db_GetUserById userId (dbManager s), s).

(** [s.userCache.LookupUsername(userId)] and [AddUserToCache]. *)
Definition userCache_LookupUsername (userId : uint32) : RPC (string * bool) :=
  λ s, match userCache s !! userId with
       | Some username => ((username, true), s)
       | None => (("", false), s)
       end.

Definition userCache_AddUserToCache (userId : uint32) (username : string) : RPC unit :=
  λ s, (tt, mkBackendServer (queueMgr s) (dbManager s)
              (<[userId := username]> (userCache s)) (playerMgr s) (disk s)).

(** [s.playerMgr.sendToPlayers(control)] *)
Definition sendToPlayers (control : PlayerControl) : RPC unit :=
  λ s, (tt, mkBackendServer (queueMgr s) (dbManager s) (userCache s)
              (playerMgr s ++ [control]) (disk s)).

Definition ioutil_ReadFile (file : string) : RPC (bytes + error) :=
  λ s, (ReadFile file (disk s), s).

(** Returns the username associated with the user id. An empty string is
    returned if there was an error or the user id wasn't found. *)
Definition getUsernameFromId (userId : uint32) : RPC string :=
  if (userId =? 0)%N then mret ""
  else
    '(username, exists_) ← userCache_LookupUsername userId;
    if exists_ : bool then mret username
    else
      r ← dbManager_GetUserById userId;
      match r with
      | inr _ => mret ""
      | inl userData =>
          userCache_AddUserToCache userId (user_Username userData);;
          mret (user_Username userData)
      end.

(** Receive a song from a remote client for appending to the play queue. *)
Definition SendSong (sub : Submission) : RPC (Error * option error) :=
  let song := mkSong "" 0 "" (sub_UserId sub) "" "" in
  username ← getUsernameFromId (UserId song);
  let song := mkSong (Title song) (SongId song) username (UserId song)
                     (Service song) (ServiceId song) in
  if decide (Username song = "") then
    mret (mkError false "Song submitted by unknown user", None)
  else
    match fetchSongData (Link sub) song with
    | (_, Some err) => mret (mkError false err, None)
    | (song, None) =>
        queueMgr_AddSong song;;
        dbManager_AddSong song;;
        queueMgr_SavePlaylist queueSnapshot;;
        mret (mkError true "Success", None)
    end.

(** The loop of [loadPlaylistFromFile] over [playlist.Songs]. *)
Fixpoint loadSongs (songs : list Song) : RPC unit :=
  match songs with
  | [] => mret tt
  | s_i :: rest =>
      let song := mkSong (Title s_i) (SongId s_i) (Username s_i)
                         (UserId s_i) (Service s_i) (ServiceId s_i) in
      queueMgr_AddSong song;;
      loadSongs rest
  end.

(** Load a playlist from a serialized protobuf file. *)
Definition loadPlaylistFromFile (file : string) : RPC unit :=
  r ← ioutil_ReadFile file;
  match r with
  | inr _ => mret tt
  | inl in_ =>
      match Unmarshal in_ with
      | inr _ => mret tt
      | inl playlist => loadSongs (Songs playlist)
      end
  end.


(** Returns the songs in the queue back to the requesting client. *)
Definition GetPlaylist : RPC (Playlist * option error) :=
  playlist ← queueMgr_GetPlaylist; mret (playlist, None).

(** Pops a song off the top of the queueMgr and returns it. *)
Definition PopQueue : RPC (option Song * option error) :=
  n ← queueMgr_Len;
  if (n >? 0)%Z then
    song ← queueMgr_PopQueue;
    queueMgr_SavePlaylist queueSnapshot;;
    mret (song, None)
  else mret (Some emptySong, None).

(** Saves the current playlist to the given file location. *)
Definition SavePlaylist (fname : FilePath) : RPC (Error * option error) :=
  err ← queueMgr_SavePlaylist (Path fname);
  match err with
  | Some msg => mret (mkError false msg, None)
  | None => mret (mkError true "Success", None)
  end.

(** Removes the given song from the playlist. The user identified by the
    song eviction must match the id of the user who submitted the song. *)
Definition RemoveSong (eviction : Eviction) : RPC (Error * option error) :=
  err ← queueMgr_RemoveSong (ev_SongId eviction) (ev_UserId eviction);
  match err with
  | Some msg => mret (mkError false msg, None)
  | None => mret (mkError true "Success", None)
  end.

(** Returns the song that should be considered "now playing". If there
    isn't a current song, then an empty Song struct is returned. *)
Definition GetNowPlaying : RPC (option Song * option error) :=
  nowPlaying ← queueMgr_NowPlaying;
  match nowPlaying with
  | None => mret (Some emptySong, None)
  | Some _ => mret (nowPlaying, None)
  end.

(** Forwards the command to skip the currently playing song onto the
    remote player. *)
Definition NextSong : RPC (Error * option error) :=
  nextSong ← queueMgr_PopQueue;
  let control := mkPlayerControl CommandType_Next nextSong in
  sendToPlayers control;;
  mret (mkError true "Success", None).

(** Forwards the command to pause the currently playing song onto the
    remote player. *)
Definition PauseSong : RPC (Error * option error) :=
  sendToPlayers (mkPlayerControl CommandType_Pause None);;
  mret (mkError true "Success", None).

(** The user side of [db.DbManager]: [AddUser] yields the new user's data
    or an error (never both nil), [UpdateUsername] an error or nil. *)
Context `{DbUsers : !DbUserManager Db}.

Definition dbManager_AddUser (username : string) : RPC (User + error) :=
  λ s, let '(r, db) := db_AddUser username (dbManager s) in
       (r, mkBackendServer (queueMgr s) db (userCache s) (playerMgr s) (disk s)).

Definition dbManager_UpdateUsername (username : string) (userId : uint32)
  : RPC (option error) :=
  λ s, let '(err, db) := db_UpdateUsername username userId (dbManager s) in
       (err, mkBackendServer (queueMgr s) db (userCache s) (playerMgr s) (disk s)).

(** What [LoginUser] does once it holds the user data: cache the user id
    and username and answer with them. *)
Definition LoginUser_cache (user userData : User) : RPC (User * option error) :=
  userCache_AddUserToCache (user_UserId userData) (user_Username user);;
  mret (mkUser (user_Username user) (user_UserId userData), None).

(** Login the given user. If the user id is not in the database a new user
    is created. A successful call echoes the username and returns the
    user id of the database; an id of zero is returned when an error
    occurred. If a user exists with the given id but another name, the
    new name is applied to the database. *)
Definition LoginUser (user : User) : RPC (User * option error) :=
  r ← dbManager_GetUserById (user_UserId user);
  match r with
  | inr err =>
      if decide (err = sql_ErrNoRows) then
        r' ← dbManager_AddUser (user_Username user);
        match r' with
        | inr _ => mret (mkUser (user_Username user) 0, None)
        | inl userData => LoginUser_cache user userData
        end
      else mret (mkUser (user_Username user) 0, None)
  | inl userData =>
      if decide (user_Username userData ≠ user_Username user) then
        err ← dbManager_UpdateUsername (user_Username user) (user_UserId user);
        match err with
        | Some _ => mret (mkUser (user_Username user) 0, None)
        | None => LoginUser_cache user userData
        end
      else LoginUser_cache user userData
  end.

End Server.
End backend.

(** ** Goroutines: [WaitForMoreSongs] against [AddSong]

    An interleaving model at the grain of the calls on [sync.RWMutex],
    [sync.Mutex] and [sync.Cond]. Each goroutine runs one of the two
    methods and is at one program point; a scheduler picks which goroutine
    makes the next move. *)
Module goroutines.

(** [fifo.lock], a [sync.RWMutex]: held by a writer, or by some readers. *)
Record RWMutex := mkRWMutex { writer : bool; readers : nat }.

(** Where a goroutine is. The comment gives the call it makes next. *)
Inductive pc :=
| AddSong_Lock (song : Song)      (* fifo.lock.Lock() *)
| AddSong_PushBack (song : Song)  (* fifo.playQueue.PushBack(song) *)
| AddSong_Broadcast               (* if fifo.playQueue.Len() == 1 { fifo.cond.Broadcast() } *)
| AddSong_Unlock                  (* deferred fifo.lock.Unlock() *)
| Wait_Lock                       (* fifo.cond.L.Lock() *)
| Wait_Len_RLock                  (* for fifo.Len(): fifo.lock.RLock() *)
| Wait_Len_Return                 (* ... return fifo.playQueue.Len(), deferred RUnlock, == 0 *)
| Wait_Wait                       (* fifo.cond.Wait(): joins the waiters, unlocks cond.L *)
| Wait_Parked                     (* suspended in Wait until a Broadcast *)
| Wait_Relock                     (* woken: Wait locks cond.L again, then the loop test *)
| Wait_Unlock                     (* fifo.cond.L.Unlock() *)
| Returned.

Record State := mkState {
  fifo : song_queue.FifoQueuer;   (* the data of the queuer *)
  lock : RWMutex;                 (* fifo.lock *)
  cLock : bool;                   (* fifo.cLock, the cond.L: held or not *)
  goroutine : list pc;            (* the goroutines, by index *)
}.

(** [cond.Broadcast()] wakes every goroutine suspended in [Wait]. *)
Definition wake (p : pc) : pc :=
  match p with Wait_Parked => Wait_Relock | _ => p end.

Definition goto (g : nat) (p : pc) (gs : list pc) : list pc := <[g := p]> gs.

(** One move of goroutine [g]; [None] when [g] is blocked, has returned or
    does not exist. *)
Definition step (g : nat) (σ : State) : option State :=
  p ← goroutine σ !! g;
  match p with
  | AddSong_Lock song =>
      if writer (lock σ) || negb (readers (lock σ) =? 0)%nat then None
      else Some (mkState (fifo σ) (mkRWMutex true 0) (cLock σ)
                         (goto g (AddSong_PushBack song) (goroutine σ)))
  | AddSong_PushBack song =>
      Some (mkState (song_queue.mkFifoQueuer
                       (song_queue.playQueue (fifo σ) ++ [song])
                       (song_queue.nowPlaying (fifo σ)))
                    (lock σ) (cLock σ) (goto g AddSong_Broadcast (goroutine σ)))
  | AddSong_Broadcast =>
      if (length (song_queue.playQueue (fifo σ)) =? 1)%nat
      then Some (mkState (fifo σ) (lock σ) (cLock σ)
                         (goto g AddSong_Unlock (wake <$> goroutine σ)))
      else Some (mkState (fifo σ) (lock σ) (cLock σ)
                         (goto g AddSong_Unlock (goroutine σ)))
  | AddSong_Unlock =>
      Some (mkState (fifo σ) (mkRWMutex false (readers (lock σ))) (cLock σ)
                    (goto g Returned (goroutine σ)))
  | Wait_Lock =>
      if cLock σ then None
      else Some (mkState (fifo σ) (lock σ) true (goto g Wait_Len_RLock (goroutine σ)))
  | Wait_Len_RLock =>
      if writer (lock σ) then None
      else Some (mkState (fifo σ) (mkRWMutex false (S (readers (lock σ)))) (cLock σ)
                         (goto g Wait_Len_Return (goroutine σ)))
  | Wait_Len_Return =>
      Some (mkState (fifo σ) (mkRWMutex (writer (lock σ)) (pred (readers (lock σ))))
                    (cLock σ)
                    (goto g (if (length (song_queue.playQueue (fifo σ)) =? 0)%nat
                             then Wait_Wait else Wait_Unlock) (goroutine σ)))
  | Wait_Wait =>
      Some (mkState (fifo σ) (lock σ) false (goto g Wait_Parked (goroutine σ)))
  | Wait_Parked => None
  | Wait_Relock =>
      if cLock σ then None
      else Some (mkState (fifo σ) (lock σ) true (goto g Wait_Len_RLock (goroutine σ)))
  | Wait_Unlock =>
      Some (mkState (fifo σ) (lock σ) false (goto g Returned (goroutine σ)))
  | Returned => None
  end.

(** The moves of a schedule, one goroutine index after the other. *)
Fixpoint run (schedule : list nat) (σ : State) : option State :=
  match schedule with
  | [] => Some σ
  | g :: rest => σ' ← step g σ; run rest σ'
  end.

(** All locks free, the goroutines at the points given. *)
Definition start (q : song_queue.FifoQueuer) (gs : list pc) : State :=
  mkState q (mkRWMutex false 0) false gs.

(** A goroutine that runs [AddSong] or has returned. *)
Definition adding (p : pc) : bool :=
  match p with
  | AddSong_Lock _ | AddSong_PushBack _ | AddSong_Broadcast | AddSong_Unlock
  | Returned => true
  | _ => false
  end.

(** A goroutine at the entry of its method. *)
Definition at_entry (p : pc) : bool :=
  match p with AddSong_Lock _ | Wait_Lock => true | _ => false end.

(** A goroutine that has pushed its song, or has seen a length other than
    0 in the loop test of [WaitForMoreSongs], or has returned. *)
Definition seen_song (p : pc) : bool :=
  match p with
  | AddSong_Broadcast | AddSong_Unlock | Wait_Unlock | Returned => true
  | _ => false
  end.

(** Once a waiter is suspended while the queue holds a song, the calls of
    [AddSong] that follow never wake it: their [Broadcast] is for the
    length 1 only. *)
Definition parked_for_good (w : nat) (σ : State) : Prop :=
  goroutine σ !! w = Some Wait_Parked
  ∧ (1 ≤ length (song_queue.playQueue (fifo σ)))%nat
  ∧ (∀ g p, goroutine σ !! g = Some p → g ≠ w → adding p = true)
  ∧ (∀ g, goroutine σ !! g = Some AddSong_Broadcast →
          (2 ≤ length (song_queue.playQueue (fifo σ)))%nat).

End goroutines.

(** ** Goroutines: [GetPlaylist] against [AddSong] and [PopQueue]

    [GetPlaylist] sizes its slice from [fifo.playQueue.Len()] before it
    takes the read lock, and fills the slice under the lock. The model
    has the same grain as [Module goroutines]; the loop that copies the
    list runs under the read lock and is one move. *)
Module playlist_goroutines.
Import goroutines.

Inductive pc :=
| GetPlaylist_make                          (* songs := make([]*cmpb.Song, fifo.playQueue.Len()) *)
| GetPlaylist_RLock (n : nat)               (* fifo.lock.RLock(), songs of length n *)
| GetPlaylist_copy (n : nat)                (* for e := Front(); e != nil; e = e.Next() { songs[idx] = ...; idx++ } *)
| GetPlaylist_RUnlock (songs : list (option Song))  (* deferred fifo.lock.RUnlock() *)
| GetPlaylist_returned (songs : list (option Song)) (* &bepb.Playlist{Songs: songs} *)
| GetPlaylist_panicked                      (* index out of range, read lock released by the defer *)
| AddSong_Lock (song : Song)                (* fifo.lock.Lock() *)
| AddSong_PushBack (song : Song)            (* fifo.playQueue.PushBack(song), Broadcast left out *)
| AddSong_Unlock                            (* deferred fifo.lock.Unlock() *)
| PopQueue_npLock                           (* fifo.npLock.Lock() *)
| PopQueue_clear                            (* fifo.nowPlaying = nil *)
| PopQueue_Lock                             (* fifo.lock.Lock() *)
| PopQueue_remove                           (* if Len() > 0 { front = Remove(Front()); nowPlaying = front } *)
| PopQueue_Unlock (front : option Song)     (* deferred fifo.lock.Unlock() *)
| PopQueue_npUnlock (front : option Song)   (* deferred fifo.npLock.Unlock() *)
| PopQueue_returned (front : option Song)
| AddSong_returned.

Record State := mkState {
  fifo : song_queue.FifoQueuer;   (* the data of the queuer *)
  lock : RWMutex;                 (* fifo.lock *)
  npLock : bool;                  (* fifo.npLock: held or not *)
  goroutine : list pc;            (* the goroutines, by index *)
}.

Definition goto (g : nat) (p : pc) (σ : State) (q : song_queue.FifoQueuer)
    (l : RWMutex) (np : bool) : option State :=
  Some (mkState q l np (<[g := p]> (goroutine σ))).

Definition lock_free (l : RWMutex) : bool :=
  negb (writer l) && (readers l =? 0)%nat.

(** One move of goroutine [g]; [None] when [g] is blocked, is done or
    does not exist. *)
Definition step (g : nat) (σ : State) : option State :=
  p ← goroutine σ !! g;
  let q := fifo σ in
  let l := lock σ in
  match p with
  | GetPlaylist_make =>
      goto g (GetPlaylist_RLock (length (song_queue.playQueue q))) σ q l (npLock σ)
  | GetPlaylist_RLock n =>
      if writer l then None
      else goto g (GetPlaylist_copy n) σ q (mkRWMutex false (S (readers l))) (npLock σ)
  | GetPlaylist_copy n =>
      if (length (song_queue.playQueue q) <=? n)%nat
      then goto g (GetPlaylist_RUnlock
                     ((Some <$> song_queue.playQueue q)
                      ++ replicate (n - length (song_queue.playQueue q)) None))
                σ q l (npLock σ)
      else goto g GetPlaylist_panicked σ q
                (mkRWMutex (writer l) (pred (readers l))) (npLock σ)
  | GetPlaylist_RUnlock songs =>
      goto g (GetPlaylist_returned songs) σ q
           (mkRWMutex (writer l) (pred (readers l))) (npLock σ)
  | AddSong_Lock song =>
      if lock_free l then goto g (AddSong_PushBack song) σ q (mkRWMutex true 0) (npLock σ)
      else None
  | AddSong_PushBack song =>
      goto g AddSong_Unlock σ
           (song_queue.mkFifoQueuer (song_queue.playQueue q ++ [song])
                                    (song_queue.nowPlaying q))
           l (npLock σ)
  | AddSong_Unlock =>
      goto g AddSong_returned σ q (mkRWMutex false (readers l)) (npLock σ)
  | PopQueue_npLock =>
      if npLock σ then None else goto g PopQueue_clear σ q l true
  | PopQueue_clear =>
      goto g PopQueue_Lock σ
           (song_queue.mkFifoQueuer (song_queue.playQueue q) None) l (npLock σ)
  | PopQueue_Lock =>
      if lock_free l then goto g PopQueue_remove σ q (mkRWMutex true 0) (npLock σ)
      else None
  | PopQueue_remove =>
      match song_queue.playQueue q with
      | front :: rest =>
          goto g (PopQueue_Unlock (Some front)) σ
               (song_queue.mkFifoQueuer rest (Some front)) l (npLock σ)
      | [] => goto g (PopQueue_Unlock None) σ q l (npLock σ)
      end
  | PopQueue_Unlock front =>
      goto g (PopQueue_npUnlock front) σ q (mkRWMutex false (readers l)) (npLock σ)
  | PopQueue_npUnlock front =>
      goto g (PopQueue_returned front) σ q l false
  | GetPlaylist_returned _ | GetPlaylist_panicked | PopQueue_returned _
  | AddSong_returned => None
  end.

(** The moves of a schedule, one goroutine index after the other. *)
Fixpoint run (schedule : list nat) (σ : State) : option State :=
  match schedule with
  | [] => Some σ
  | g :: rest => σ' ← step g σ; run rest σ'
  end.

(** All locks free, the goroutines at the points given. *)
Definition start (q : song_queue.FifoQueuer) (gs : list pc) : State :=
  mkState q (mkRWMutex false 0) false gs.

End playlist_goroutines.

(** ** A codec for the examples

    A byte encoding of playlists that decodes what it encodes: numbers in
    unary, strings and lists behind their length. It stands in for the
    protobuf wire format where an example needs bytes on disk. *)
Module example_codec.

Definition encode_nat (n : nat) : bytes := repeat x01 n ++ [x00].

Fixpoint decode_nat (bs : bytes) : option (nat * bytes) :=
  match bs with
  | [] => None
  | b :: rest =>
      if Byte.eqb b x00 then Some (0%nat, rest)
      else if Byte.eqb b x01 then
        '(n, rest') ← decode_nat rest; Some (S n, rest')
      else None
  end.

Definition encode_string (s : string) : bytes :=
  let bs := list_byte_of_string s in encode_nat (length bs) ++ bs.

Definition decode_string (bs : bytes) : option (string * bytes) :=
  '(n, rest) ← decode_nat bs;
  if (n <=? length rest)%nat
  then Some (string_of_list_byte (take n rest), drop n rest)
  else None.

Definition encode_uint32 (n : uint32) : bytes := encode_nat (N.to_nat n).

Definition decode_uint32 (bs : bytes) : option (uint32 * bytes) :=
  '(n, rest) ← decode_nat bs; Some (N.of_nat n, rest).

Definition encode_Song (s : Song) : bytes :=
  encode_string (Title s) ++ encode_uint32 (SongId s) ++
  encode_string (Username s) ++ encode_uint32 (UserId s) ++
  encode_string (Service s) ++ encode_string (ServiceId s).

Definition decode_Song (bs : bytes) : option (Song * bytes) :=
  '(title, bs) ← decode_string bs;
  '(songId, bs) ← decode_uint32 bs;
  '(username, bs) ← decode_string bs;
  '(userId, bs) ← decode_uint32 bs;
  '(service, bs) ← decode_string bs;
  '(serviceId, bs) ← decode_string bs;
  Some (mkSong title songId username userId service serviceId, bs).

Definition encode_Songs (songs : list Song) : bytes :=
  concat (encode_Song <$> songs).

Fixpoint decode_Songs (n : nat) (bs : bytes) : option (list Song * bytes) :=
  match n with
  | O => Some ([], bs)
  | S n' =>
      '(song, bs) ← decode_Song bs;
      '(songs, bs) ← decode_Songs n' bs;
      Some (song :: songs, bs)
  end.

Definition encode_Playlist (p : Playlist) : bytes :=
  encode_nat (length (Songs p)) ++ encode_Songs (Songs p).

Definition decode_Playlist (bs : bytes) : Playlist + error :=
  match decode_nat bs with
  | Some (n, rest) =>
      match decode_Songs n rest with
      | Some (songs, []) => inl (mkPlaylist songs)
      | _ => inr "proto: cannot parse invalid wire-format data"
      end
  | None => inr "proto: cannot parse invalid wire-format data"
  end.

#[export] Instance codec : ProtoCodec := {
  Marshal p := inl (encode_Playlist p);
  Unmarshal := decode_Playlist;
}.

End example_codec.

(** ** Collaborators for the examples *)
Module example.
Import backend.

(** A database that hands out song ids in sequence and knows one user. *)
#[export] Instance db : DbManager N := {
  db_AddSong song next :=
    (mkSong (Title song) (next + 1) (Username song) (UserId song)
            (Service song) (ServiceId song), (next + 1)%N);
  db_GetUserById userId _ :=
    if (userId =? 7)%N then inl (mkUser "ann" 7)
    else inr "sql: no rows in result set";
}.

(** New users get the id 8; the name of a user cannot be set to the empty
    string. *)
#[export] Instance db_users : DbUserManager N := {
  db_AddUser username next :=
    (if decide (username = "") then inr "UNIQUE constraint failed"
     else inl (mkUser username 8), next);
  db_UpdateUsername username userId next :=
    (if decide (username = "") then Some "CHECK constraint failed" else None, next);
}.

(** A fetcher that takes the link for title and service id. *)
#[export] Instance fetcher : SongFetcher := {
  fetchSongData link song :=
    if decide (link = "") then (song, Some "Failed to parse link")
    else (mkSong link (SongId song) (Username song) (UserId song)
                 "youtube" link, None);
}.

Definition A : Song := mkSong "A" 1 "ann" 10 "youtube" "a1".
Definition B : Song := mkSong "B" 2 "ann" 10 "youtube" "b2".
Definition C : Song := mkSong "C" 3 "bob" 20 "youtube" "c3".
(** A second submission carrying the song id of [A], by another user. *)
Definition A' : Song := mkSong "A again" 1 "bob" 20 "youtube" "a1".

Definition emptyDisk : FileSystem := mkFileSystem ∅ ∅.

Definition server (q : list Song) (np : option Song) : BackendServer (Db:=N) :=
  mkBackendServer (song_queue.mkFifoQueuer q np) 0%N ∅ [] emptyDisk.

End example.

(** ** Histories: sequences of calls on one queuer *)
Module history.
Import song_queue.

Inductive call :=
| call_AddSong (song : Song)
| call_PopQueue
| call_RemoveSong (songId userId : uint32).

Inductive outcome :=
| Added
| Popped (song : option Song)
| Removed (err : option error).

Definition perform (c : call) (fifo : FifoQueuer) : FifoQueuer * outcome :=
  match c with
  | call_AddSong song => (AddSong song fifo, Added)
  | call_PopQueue => let '(fifo', song) := PopQueue fifo in (fifo', Popped song)
  | call_RemoveSong songId userId =>
      let '(fifo', err) := RemoveSong songId userId fifo in (fifo', Removed err)
  end.

(** The calls in order; the state at the end and what each call returned. *)
Fixpoint perform_all (cs : list call) (fifo : FifoQueuer)
  : FifoQueuer * list outcome :=
  match cs with
  | [] => (fifo, [])
  | c :: rest =>
      let '(fifo', o) := perform c fifo in
      let '(fifo'', os) := perform_all rest fifo' in
      (fifo'', o :: os)
  end.

(** The songs handed to [AddSong], in call order. *)
Fixpoint added (cs : list call) : list Song :=
  match cs with
  | [] => []
  | call_AddSong song :: rest => song :: added rest
  | _ :: rest => added rest
  end.

(** The songs that [PopQueue] returned, in call order. *)
Fixpoint popped (os : list outcome) : list Song :=
  match os with
  | [] => []
  | Popped (Some song) :: rest => song :: popped rest
  | _ :: rest => popped rest
  end.

(** How many calls of [PopQueue] there are, whatever they returned. *)
Fixpoint pop_calls (cs : list call) : nat :=
  match cs with
  | [] => 0
  | call_PopQueue :: rest => S (pop_calls rest)
  | _ :: rest => pop_calls rest
  end.

(** How many calls of [RemoveSong] returned the nil error. *)
Fixpoint removed (os : list outcome) : nat :=
  match os with
  | [] => 0
  | Removed None :: rest => S (removed rest)
  | _ :: rest => removed rest
  end.

Definition is_RemoveSong (c : call) : bool :=
  match c with call_RemoveSong _ _ => true | _ => false end.

(** Every [AddSong] of the history carries a song id that no song of the
    queue has at the time of the call. *)
Fixpoint adds_fresh (cs : list call) (fifo : FifoQueuer) : bool :=
  match cs with
  | [] => true
  | c :: rest =>
      match c with
      | call_AddSong song =>
          negb (existsb (λ x, SongId x =? SongId song)%N (playQueue fifo))
      | _ => true
      end && adds_fresh rest (fst (perform c fifo))
  end.

End history.

(** * Properties *)

(** ** [PopQueue], [AddSong], [RemoveSong] and [Len] of the FIFO queuer *)
Section FifoQueuer_properties.
Import song_queue.

Lemma FifoQueuer_eta (fifo : FifoQueuer) :
  mkFifoQueuer (playQueue fifo) (nowPlaying fifo) = fifo.
Proof. by destruct fifo. Qed.

Lemma Song_eta (s : Song) :
  mkSong (Title s) (SongId s) (Username s) (UserId s) (Service s) (ServiceId s) = s.
Proof. by destruct s. Qed.

Lemma PopQueue_nil (np : option Song) :
  PopQueue (mkFifoQueuer [] np) = (mkFifoQueuer [] None, None).
Proof. reflexivity. Qed.

Lemma PopQueue_cons (front : Song) (rest : list Song) (np : option Song) :
  PopQueue (mkFifoQueuer (front :: rest) np)
  = (mkFifoQueuer rest (Some front), Some front).
Proof.
  unfold PopQueue, Len; cbn [playQueue length].
  by rewrite (proj2 (Z.gtb_lt _ _)) by lia.
Qed.

(** C1 (as the code has it): on an empty queue [PopQueue] returns no song
    and leaves the queue empty, and [NowPlaying] is empty afterwards: the
    call clears it before it looks at the queue. Only when nothing was
    playing is the state the same after the call. *)
Theorem PopQueue_empty (fifo : FifoQueuer) :
  playQueue fifo = [] →
  snd (PopQueue fifo) = None
  ∧ playQueue (fst (PopQueue fifo)) = []
  ∧ NowPlaying (fst (PopQueue fifo)) = None
  ∧ (NowPlaying fifo = None → fst (PopQueue fifo) = fifo).
Proof.
  destruct fifo as [q np]; cbn [playQueue]; intros ->.
  rewrite PopQueue_nil; cbn.
  repeat split; unfold NowPlaying; cbn; by intros ->.
Qed.

Lemma PopQueue_empty_witness :
  let fifo := mkFifoQueuer [] (Some example.A) in
  snd (PopQueue fifo) = None
  ∧ playQueue (fst (PopQueue fifo)) = []
  ∧ NowPlaying (fst (PopQueue fifo)) = None
  ∧ (NowPlaying fifo = None → fst (PopQueue fifo) = fifo).
Proof. apply (PopQueue_empty (mkFifoQueuer [] (Some example.A))). reflexivity. Defined.

(** C1, counterexample: with an empty queue and song A playing, the call
    changes what [NowPlaying] returns. *)
Lemma PopQueue_empty_clears_NowPlaying :
  let fifo := mkFifoQueuer [] (Some example.A) in
  playQueue fifo = []
  ∧ snd (PopQueue fifo) = None
  ∧ NowPlaying fifo = Some example.A
  ∧ NowPlaying (fst (PopQueue fifo)) = None
  ∧ NowPlaying (fst (PopQueue fifo)) ≠ NowPlaying fifo.
Proof. cbn; repeat split; discriminate. Qed.

(** C3: on a non-empty queue [PopQueue] drops whatever was playing, takes
    the front song off the queue, makes it the playing song and returns
    it; [NowPlaying] right after the call returns the returned song. *)
Theorem PopQueue_nonempty (fifo : FifoQueuer) :
  (Len fifo > 0)%Z →
  ∃ front rest,
    playQueue fifo = front :: rest
    ∧ snd (PopQueue fifo) = Some front
    ∧ playQueue (fst (PopQueue fifo)) = rest
    ∧ NowPlaying (fst (PopQueue fifo)) = Some front
    ∧ NowPlaying (fst (PopQueue fifo)) = snd (PopQueue fifo).
Proof.
  destruct fifo as [[|front rest] np]; unfold Len; cbn [playQueue length]; [lia|].
  intros _. exists front, rest. by rewrite PopQueue_cons.
Qed.

Lemma PopQueue_nonempty_witness :
  ∃ front rest,
    [example.A; example.B] = front :: rest
    ∧ snd (PopQueue (mkFifoQueuer [example.A; example.B] (Some example.C))) = Some front
    ∧ playQueue (fst (PopQueue (mkFifoQueuer [example.A; example.B] (Some example.C)))) = rest
    ∧ NowPlaying (fst (PopQueue (mkFifoQueuer [example.A; example.B] (Some example.C)))) = Some front
    ∧ NowPlaying (fst (PopQueue (mkFifoQueuer [example.A; example.B] (Some example.C))))
      = snd (PopQueue (mkFifoQueuer [example.A; example.B] (Some example.C))).
Proof.
  apply (PopQueue_nonempty (mkFifoQueuer [example.A; example.B] (Some example.C))).
  unfold Len; cbn; lia.
Defined.

(** *** [RemoveSong] *)

Lemma RemoveSong_from_absent (songId userId : uint32) (q : list Song) :
  (∀ x, x ∈ q → SongId x ≠ songId) →
  RemoveSong_from songId userId q = (q, Some (NotFound songId)).
Proof.
  induction q as [|song next IH]; intros Hq; [done|]; cbn [RemoveSong_from].
  destruct (N.eqb_spec (SongId song) songId) as [Heq|_].
  - destruct (Hq song); [left | done].
  - rewrite IH; [done|]. intros x Hx. apply Hq. by right.
Qed.

Lemma RemoveSong_from_first (songId userId : uint32) (pre post : list Song) (s : Song) :
  (∀ x, x ∈ pre → SongId x ≠ songId) →
  SongId s = songId →
  RemoveSong_from songId userId (pre ++ s :: post)
  = if (UserId s =? userId)%N then (pre ++ post, None)
    else (pre ++ s :: post, Some (PermissionDenied userId songId)).
Proof.
  intros Hpre Hs.
  induction pre as [|song next IH]; cbn [RemoveSong_from app].
  - by rewrite (proj2 (N.eqb_eq _ _) Hs).
  - destruct (N.eqb_spec (SongId song) songId) as [Heq|_].
    + destruct (Hpre song); [left | done].
    + rewrite IH; [by destruct (UserId s =? userId)%N|].
      intros x Hx. apply Hpre. by right.
Qed.

Lemma RemoveSong_from_elem (songId userId : uint32) (q : list Song) (x : Song) :
  x ∈ (RemoveSong_from songId userId q).1 → x ∈ q.
Proof.
  induction q as [|song next IH]; cbn [RemoveSong_from]; [done|].
  destruct (SongId song =? songId)%N.
  - destruct (UserId song =? userId)%N; cbn; [by right | done].
  - destruct (RemoveSong_from songId userId next) as [next' err]; cbn in *.
    intros [->|Hx]%elem_of_cons; [left | right; auto].
Qed.

Lemma RemoveSong_from_NoDup (songId userId : uint32) (q : list Song) :
  NoDup (SongId <$> q) → NoDup (SongId <$> (RemoveSong_from songId userId q).1).
Proof.
  induction q as [|song next IH]; cbn [RemoveSong_from]; [done|].
  rewrite fmap_cons, NoDup_cons. intros [Hsong Hnext].
  destruct (SongId song =? songId)%N.
  - destruct (UserId song =? userId)%N; cbn; [done|].
    by rewrite NoDup_cons.
  - pose proof (RemoveSong_from_elem songId userId next) as Hsub.
    destruct (RemoveSong_from songId userId next) as [next' err]; cbn in *.
    rewrite NoDup_cons; split; [|auto].
    intros (x & Hx & Hin)%list_elem_of_fmap. apply Hsong.
    apply list_elem_of_fmap. exists x. auto.
Qed.

Lemma RemoveSong_from_length (songId userId : uint32) (q : list Song) :
  length q
  = (length (RemoveSong_from songId userId q).1
     + match (RemoveSong_from songId userId q).2 with None => 1 | Some _ => 0 end)%nat.
Proof.
  induction q as [|song next IH]; cbn [RemoveSong_from]; [done|].
  destruct (SongId song =? songId)%N.
  - destruct (UserId song =? userId)%N; cbn; lia.
  - destruct (RemoveSong_from songId userId next) as [next' err]; cbn in *. lia.
Qed.

(** The two messages differ, whatever the numbers printed in them. *)
Lemma PermissionDenied_not_NotFound (userId songId songId' : uint32) :
  PermissionDenied userId songId ≠ NotFound songId'.
Proof. discriminate. Qed.

(** C4 (as the code has it): [RemoveSong] scans from the front and decides
    on the first song that has the song id. No song has it: the NotFound
    message, queue unchanged. The first one was submitted by another user:
    the PermissionDenied message, queue unchanged. The first one was
    submitted by [userId]: that one element leaves the queue and the error
    is nil. When the song ids of the queue are pairwise distinct, any
    song with the id and another submitter gives PermissionDenied, as the
    claim has it. The playing song is never touched. *)
Theorem RemoveSong_first_match (songId userId : uint32) (fifo : FifoQueuer) :
  nowPlaying (RemoveSong songId userId fifo).1 = nowPlaying fifo
  ∧ ((∀ x, x ∈ playQueue fifo → SongId x ≠ songId) →
     RemoveSong songId userId fifo = (fifo, Some (NotFound songId)))
  ∧ (∀ pre s post,
       playQueue fifo = pre ++ s :: post →
       (∀ x, x ∈ pre → SongId x ≠ songId) →
       SongId s = songId →
       (UserId s ≠ userId →
        RemoveSong songId userId fifo = (fifo, Some (PermissionDenied userId songId)))
       ∧ (UserId s = userId →
          RemoveSong songId userId fifo
          = (mkFifoQueuer (pre ++ post) (nowPlaying fifo), None)))
  ∧ (NoDup (SongId <$> playQueue fifo) →
     ∀ s, s ∈ playQueue fifo → SongId s = songId → UserId s ≠ userId →
          RemoveSong songId userId fifo = (fifo, Some (PermissionDenied userId songId))).
Proof.
  destruct fifo as [q np]; unfold RemoveSong; cbn [playQueue nowPlaying].
  assert (Hfirst : ∀ pre s post,
    q = pre ++ s :: post → (∀ x, x ∈ pre → SongId x ≠ songId) → SongId s = songId →
    (UserId s ≠ userId →
     (let '(q0, err) := RemoveSong_from songId userId q in (mkFifoQueuer q0 np, err))
     = (mkFifoQueuer q np, Some (PermissionDenied userId songId)))
    ∧ (UserId s = userId →
       (let '(q0, err) := RemoveSong_from songId userId q in (mkFifoQueuer q0 np, err))
       = (mkFifoQueuer (pre ++ post) np, None))).
  { intros pre s post -> Hpre Hs.
    rewrite (RemoveSong_from_first _ userId _ _ _ Hpre Hs).
    split; intros Hu.
    - by rewrite (proj2 (N.eqb_neq _ _) Hu).
    - by rewrite (proj2 (N.eqb_eq _ _) Hu). }
  split; [|split; [|split]].
  - by destruct (RemoveSong_from songId userId q).
  - intros Hq. by rewrite RemoveSong_from_absent.
  - exact Hfirst.
  - intros Hnd s Hs Hid Hu.
    destruct (list_elem_of_split _ _ Hs) as (pre & post & ->).
    apply (Hfirst pre s post); [done| |done|done].
    intros x Hx Hxid.
    rewrite fmap_app, fmap_cons, NoDup_app in Hnd.
    destruct Hnd as (_ & Hdisj & _).
    apply (Hdisj (SongId x)); [by apply list_elem_of_fmap_2|].
    rewrite Hxid, <- Hid. left.
Qed.

Lemma RemoveSong_first_match_witness :
  RemoveSong 2 99 (mkFifoQueuer [example.A; example.B; example.C] (Some example.A'))
  = (mkFifoQueuer [example.A; example.B; example.C] (Some example.A'),
     Some (PermissionDenied 99 2))
  ∧ RemoveSong 2 10 (mkFifoQueuer [example.A; example.B; example.C] (Some example.A'))
    = (mkFifoQueuer [example.A; example.C] (Some example.A'), None)
  ∧ RemoveSong 4 10 (mkFifoQueuer [example.A; example.B; example.C] (Some example.A'))
    = (mkFifoQueuer [example.A; example.B; example.C] (Some example.A'),
       Some (NotFound 4)).
Proof.
  pose (fifo := mkFifoQueuer [example.A; example.B; example.C] (Some example.A')).
  split; [|split].
  - destruct (RemoveSong_first_match 2 99 fifo) as (_ & _ & Hfirst & _).
    apply (Hfirst [example.A] example.B [example.C]); [reflexivity| |reflexivity|discriminate].
    intros x ->%list_elem_of_singleton; discriminate.
  - destruct (RemoveSong_first_match 2 10 fifo) as (_ & _ & Hfirst & _).
    apply (Hfirst [example.A] example.B [example.C]); [reflexivity| |reflexivity|reflexivity].
    intros x ->%list_elem_of_singleton; discriminate.
  - destruct (RemoveSong_first_match 4 10 fifo) as (_ & Habsent & _).
    apply Habsent. intros x Hx.
    repeat (apply elem_of_cons in Hx as [->|Hx]; [discriminate|]).
    by apply elem_of_nil in Hx.
Defined.

(** C4, counterexample: the queue holds A (song id 1, user 10) and then a
    second submission with song id 1 by user 20. For (1, 10) a song with
    that id and another submitter exists, and yet the call succeeds and
    removes A. *)
Lemma RemoveSong_duplicate_id_removed :
  let fifo := mkFifoQueuer [example.A; example.A'] None in
  example.A' ∈ playQueue fifo
  ∧ SongId example.A' = 1%N
  ∧ UserId example.A' ≠ 10%N
  ∧ RemoveSong 1 10 fifo = (mkFifoQueuer [example.A'] None, None)
  ∧ RemoveSong 1 10 fifo ≠ (fifo, Some (PermissionDenied 10 1)).
Proof.
  cbn. repeat split; try discriminate.
  right; left.
Qed.

End FifoQueuer_properties.

(** ** Histories of calls *)
Section history_properties.
Import song_queue history.

Lemma perform_all_cons (c : call) (cs : list call) (fifo : FifoQueuer) :
  perform_all (c :: cs) fifo
  = ((perform_all cs (perform c fifo).1).1,
     (perform c fifo).2 :: (perform_all cs (perform c fifo).1).2).
Proof.
  cbn [perform_all]. destruct (perform c fifo) as [fifo' o]; cbn.
  by destruct (perform_all cs fifo').
Qed.

Lemma PopQueue_queue (fifo : FifoQueuer) :
  playQueue (PopQueue fifo).1 = tail (playQueue fifo)
  ∧ (PopQueue fifo).2 = head (playQueue fifo).
Proof.
  destruct fifo as [[|front rest] np]; [by rewrite PopQueue_nil|].
  by rewrite PopQueue_cons.
Qed.

Lemma RemoveSong_queue (songId userId : uint32) (fifo : FifoQueuer) :
  playQueue (RemoveSong songId userId fifo).1
  = (RemoveSong_from songId userId (playQueue fifo)).1
  ∧ (RemoveSong songId userId fifo).2
    = (RemoveSong_from songId userId (playQueue fifo)).2.
Proof.
  unfold RemoveSong. by destruct (RemoveSong_from songId userId (playQueue fifo)).
Qed.

(** C2 (as the code has it): [AddSong] checks nothing. It always puts the
    song at the back of the queue, one element more than before, also when
    a song with that song id is queued already. The queue is free of
    repeated song ids after the histories in which every [AddSong] brings
    a song id that the queue does not hold at that time. *)
Theorem AddSong_appends_and_fresh_ids_stay_distinct :
  (∀ song fifo,
     playQueue (AddSong song fifo) = playQueue fifo ++ [song]
     ∧ Len (AddSong song fifo) = (Len fifo + 1)%Z
     ∧ nowPlaying (AddSong song fifo) = nowPlaying fifo)
  ∧ (∀ cs,
       adds_fresh cs NewFifoQueuer = true →
       NoDup (SongId <$> playQueue (perform_all cs NewFifoQueuer).1)).
Proof.
  split.
  - intros song fifo. unfold AddSong, Len; cbn. rewrite length_app; cbn.
    repeat split; lia.
  - intros cs.
    assert (Hgen : ∀ fifo, adds_fresh cs fifo = true →
                   NoDup (SongId <$> playQueue fifo) →
                   NoDup (SongId <$> playQueue (perform_all cs fifo).1)).
    { induction cs as [|c cs IH]; intros fifo Hfresh Hnd; [done|].
      rewrite perform_all_cons; cbn [fst]. cbn [adds_fresh] in Hfresh.
      apply andb_prop in Hfresh as [Hc Hrest].
      apply IH; [done|].
      destruct c as [song| |songId userId]; cbn [perform].
      - cbn. rewrite fmap_app, NoDup_app. split; [done|]. split; [|apply NoDup_singleton].
        intros x Hx ->%list_elem_of_singleton.
        apply list_elem_of_fmap in Hx as (y & Hy & Hin).
        apply negb_true_iff in Hc.
        assert (existsb (λ x, SongId x =? SongId song)%N (playQueue fifo) = true)
          as Hex; [|congruence].
        apply existsb_exists. exists y. split; [by apply list_elem_of_In|].
        apply N.eqb_eq. congruence.
      - destruct (PopQueue_queue fifo) as [Hq _].
        destruct (PopQueue fifo) as [fifo' song]; cbn in *. rewrite Hq.
        destruct (playQueue fifo); cbn in *; [done|].
        by apply NoDup_cons in Hnd as [_ ?].
      - destruct (RemoveSong_queue songId userId fifo) as [Hq _].
        destruct (RemoveSong songId userId fifo) as [fifo' err]; cbn in *.
        rewrite Hq. by apply RemoveSong_from_NoDup. }
    intros Hfresh. apply Hgen; [done|]. apply NoDup_nil_2.
Qed.

Lemma AddSong_appends_and_fresh_ids_stay_distinct_witness :
  NoDup (SongId <$> playQueue
           (perform_all [call_AddSong example.A; call_AddSong example.B;
                         call_PopQueue; call_AddSong example.A';
                         call_RemoveSong 2 10; call_AddSong example.C]
                        NewFifoQueuer).1).
Proof.
  apply (proj2 AddSong_appends_and_fresh_ids_stay_distinct
           [call_AddSong example.A; call_AddSong example.B;
            call_PopQueue; call_AddSong example.A';
            call_RemoveSong 2 10; call_AddSong example.C]).
  reflexivity.
Defined.

(** C2, counterexample: A is queued and a second submission with the song
    id of A is added. The call is not a no-op, and the queue then holds
    two songs with song id 1. *)
Lemma AddSong_duplicate_id_enqueued :
  let fifo := (perform_all [call_AddSong example.A] NewFifoQueuer).1 in
  SongId example.A' ∈ SongId <$> playQueue fifo
  ∧ AddSong example.A' fifo ≠ fifo
  ∧ playQueue (AddSong example.A' fifo) = [example.A; example.A']
  ∧ ¬ NoDup (SongId <$> playQueue (AddSong example.A' fifo)).
Proof.
  cbn. split; [left|]. split; [discriminate|]. split; [done|].
  intros [Hin _]%NoDup_cons. apply Hin. left.
Qed.

(** C5: in a history of [AddSong] and [PopQueue] calls the songs come out
    in the order they went in. The songs returned so far, followed by the
    songs still queued, are the songs queued at the start followed by the
    songs added, in call order; and each [PopQueue] returns the front of
    the queue, the earliest of the songs still there. *)
Theorem PopQueue_in_submission_order (cs : list call) (fifo : FifoQueuer) :
  existsb is_RemoveSong cs = false →
  popped (perform_all cs fifo).2 ++ playQueue (perform_all cs fifo).1
  = playQueue fifo ++ added cs
  ∧ (PopQueue fifo).2 = head (playQueue fifo).
Proof.
  intros Hcs. split; [|apply PopQueue_queue].
  revert fifo; induction cs as [|c cs IH]; intros fifo.
  - cbn. by rewrite app_nil_r.
  - rewrite perform_all_cons; cbn [fst snd].
    cbn [existsb] in Hcs. apply orb_false_elim in Hcs as [Hc Hrest].
    specialize (IH Hrest).
    destruct c as [song| |songId userId]; [| |done]; cbn [perform added].
    + cbn [fst snd popped]. rewrite IH. cbn. by rewrite <- app_assoc.
    + destruct (PopQueue_queue fifo) as [Hq Hr].
      destruct (PopQueue fifo) as [fifo' song]; cbn [fst snd] in *.
      specialize (IH fifo'). rewrite Hq in IH. subst song.
      destruct (playQueue fifo) as [|front rest]; cbn [popped head tail] in *; [done|].
      cbn. by rewrite IH.
Qed.

Lemma PopQueue_in_submission_order_witness :
  popped (perform_all [call_AddSong example.A; call_AddSong example.B; call_PopQueue;
                       call_AddSong example.C; call_PopQueue; call_PopQueue;
                       call_PopQueue; call_AddSong example.A']
                      NewFifoQueuer).2
  = [example.A; example.B; example.C].
Proof.
  pose proof (PopQueue_in_submission_order
                [call_AddSong example.A; call_AddSong example.B; call_PopQueue;
                 call_AddSong example.C; call_PopQueue; call_PopQueue;
                 call_PopQueue; call_AddSong example.A']
                NewFifoQueuer eq_refl) as [Horder _].
  apply (app_inv_tail [example.A']). exact Horder.
Defined.

(** C8 (as the code has it): after any history of [AddSong], [PopQueue]
    and [RemoveSong] calls on a new queuer, with distinct song ids or not,
    [Len] is the number of adds, minus the number of pops that returned a
    song, minus the number of removes that succeeded. A pop on an empty
    queue returns no song and takes nothing off the count. The playing
    song has no part in [Len]. *)
Theorem Len_counts_adds_pops_removes :
  (∀ cs fifo,
     Len (perform_all cs fifo).1
     = (Len fifo + Z.of_nat (length (added cs))
        - Z.of_nat (length (popped (perform_all cs fifo).2))
        - Z.of_nat (removed (perform_all cs fifo).2))%Z)
  ∧ (∀ cs,
       Len (perform_all cs NewFifoQueuer).1
       = (Z.of_nat (length (added cs))
          - Z.of_nat (length (popped (perform_all cs NewFifoQueuer).2))
          - Z.of_nat (removed (perform_all cs NewFifoQueuer).2))%Z)
  ∧ (∀ q np np', Len (mkFifoQueuer q np) = Len (mkFifoQueuer q np')).
Proof.
  assert (Hgen : ∀ cs fifo,
     Len (perform_all cs fifo).1
     = (Len fifo + Z.of_nat (length (added cs))
        - Z.of_nat (length (popped (perform_all cs fifo).2))
        - Z.of_nat (removed (perform_all cs fifo).2))%Z).
  { induction cs as [|c cs IH]; intros fifo; [cbn; lia|].
    rewrite perform_all_cons; cbn [fst snd]. rewrite IH.
    destruct c as [song| |songId userId]; cbn [perform added].
    - cbn [fst snd popped removed length]. unfold AddSong, Len; cbn.
      rewrite length_app; cbn. lia.
    - destruct (PopQueue_queue fifo) as [Hq Hr].
      destruct (PopQueue fifo) as [fifo' song]; cbn [fst snd] in *. subst song.
      unfold Len. rewrite Hq.
      destruct (playQueue fifo) as [|front rest]; cbn; lia.
    - destruct (RemoveSong_queue songId userId fifo) as [Hq Hr].
      pose proof (RemoveSong_from_length songId userId (playQueue fifo)) as Hlen.
      destruct (RemoveSong songId userId fifo) as [fifo' err]; cbn [fst snd] in *.
      rewrite <- Hq, <- Hr in Hlen.
      unfold Len. destruct err; cbn [popped removed]; lia. }
  split; [exact Hgen|]. split; [|done].
  intros cs. rewrite Hgen. unfold Len; cbn. lia.
Qed.

(** C8, counterexample: one add and two pops, the second on the empty
    queue. [Len] is 0, while adds minus pops minus successful removes is
    1 - 2 - 0. *)
Lemma Len_not_adds_minus_pop_calls :
  let cs := [call_AddSong example.A; call_PopQueue; call_PopQueue] in
  Len (perform_all cs NewFifoQueuer).1 = 0%Z
  ∧ (perform_all cs NewFifoQueuer).2 = [Added; Popped (Some example.A); Popped None]
  ∧ (Z.of_nat (length (added cs)) - Z.of_nat (pop_calls cs)
     - Z.of_nat (removed (perform_all cs NewFifoQueuer).2))%Z = (-1)%Z
  ∧ Len (perform_all cs NewFifoQueuer).1
    ≠ (Z.of_nat (length (added cs)) - Z.of_nat (pop_calls cs)
       - Z.of_nat (removed (perform_all cs NewFifoQueuer).2))%Z.
Proof. cbn. repeat split; discriminate. Qed.

End history_properties.

(** ** The server: snapshot file, reload and skip *)
Section Server_properties.
Import backend.
Context `{ProtoCodec} {Db : Type} `{DbManager Db} `{SongFetcher}.

Implicit Types (s : BackendServer (Db:=Db)) (fifo : song_queue.FifoQueuer).

(** A save that goes through leaves the marshalled playlist at the path and
    every other file as it was. *)
Lemma SavePlaylist_writes (path : string) fifo (fs : FileSystem) (out : bytes) :
  Marshal (song_queue.GetPlaylist fifo) = inl out →
  path ∉ unwritable fs →
  song_queue.SavePlaylist path fifo fs
  = (mkFileSystem (<[path := out]> (files fs)) (unwritable fs), None).
Proof.
  intros Hout Hpath. unfold song_queue.SavePlaylist, WriteFile.
  rewrite Hout. by rewrite decide_False.
Qed.


Lemma queueMgr_SavePlaylist_spec (path : string) s :
  queueMgr (queueMgr_SavePlaylist path s).2 = queueMgr s
  ∧ disk (queueMgr_SavePlaylist path s).2
    = (song_queue.SavePlaylist path (queueMgr s) (disk s)).1
  ∧ (queueMgr_SavePlaylist path s).1
    = (song_queue.SavePlaylist path (queueMgr s) (disk s)).2.
Proof.
  unfold queueMgr_SavePlaylist.
  by destruct (song_queue.SavePlaylist path (queueMgr s) (disk s)).
Qed.

(** Looking up a username touches the user cache only. *)
Lemma getUsernameFromId_frame (userId : uint32) s :
  queueMgr (getUsernameFromId userId s).2 = queueMgr s
  ∧ disk (getUsernameFromId userId s).2 = disk s.
Proof.
  unfold getUsernameFromId.
  destruct (userId =? 0)%N; [done|].
  unfold mbind, RPC_bind, userCache_LookupUsername, dbManager_GetUserById.
  destruct (userCache s !! userId); [done|].
  by destruct (db_GetUserById userId (dbManager s)).
Qed.

Lemma loadSongs_spec (songs : list Song) s :
  loadSongs songs s
  = (tt, mkBackendServer
           (song_queue.mkFifoQueuer (song_queue.playQueue (queueMgr s) ++ songs)
                                    (song_queue.nowPlaying (queueMgr s)))
           (dbManager s) (userCache s) (playerMgr s) (disk s)).
Proof.
  revert s; induction songs as [|s_i rest IH]; intros s; cbn [loadSongs].
  - unfold mret, RPC_ret. rewrite app_nil_r, FifoQueuer_eta. by destruct s.
  - unfold mbind, RPC_bind, queueMgr_AddSong. rewrite IH; cbn.
    by rewrite Song_eta, <- app_assoc.
Qed.

(** A submission that succeeds ends with the save of the queue as it then
    is to the snapshot location. *)
Lemma SendSong_saves (sub : Submission) s :
  Success (SendSong sub s).1.1 = true →
  disk (SendSong sub s).2
  = (song_queue.SavePlaylist queueSnapshot (queueMgr (SendSong sub s).2) (disk s)).1.
Proof.
  remember (SendSong sub s) as r eqn:Hr. revert Hr.
  unfold SendSong. unfold mbind at 1; unfold RPC_bind at 1. cbn [UserId].
  destruct (getUsernameFromId_frame (sub_UserId sub) s) as [Hq Hd].
  destruct (getUsernameFromId (sub_UserId sub) s) as [username s1]; cbn [fst snd] in *.
  destruct (decide _); [by intros ->|].
  destruct (fetchSongData _ _) as [song [err|]]; [by intros ->|].
  unfold mbind, RPC_bind, mret, RPC_ret, queueMgr_AddSong, dbManager_AddSong.
  cbn [queueMgr dbManager userCache playerMgr disk with_queueMgr].
  destruct (db_AddSong song (dbManager s1)) as [song' db].
  match goal with |- context [queueMgr_SavePlaylist _ ?s2] =>
    destruct (queueMgr_SavePlaylist_spec queueSnapshot s2) as (Hq2 & Hd2 & _);
    destruct (queueMgr_SavePlaylist queueSnapshot s2) as [err s3]
  end.
  cbn [fst snd queueMgr disk] in *.
  intros -> _; cbn [fst snd]. by rewrite Hd2, Hq2, Hd.
Qed.

(** C6 (as the code has it): the snapshot of the playlist is written to
    the snapshot location [/tmp/ytbox.queue] after every successful song
    submission and after every pop that the [PopQueue] call makes on a
    non-empty queue; it holds the playlist as it is after the call. An
    explicit save writes the playlist to the path that the caller names,
    and to no other file. *)
Theorem snapshot_written s :
  (∀ sub out,
     Success (SendSong sub s).1.1 = true →
     Marshal (song_queue.GetPlaylist (queueMgr (SendSong sub s).2)) = inl out →
     queueSnapshot ∉ unwritable (disk s) →
     files (disk (SendSong sub s).2) !! queueSnapshot = Some out)
  ∧ (∀ out,
       (song_queue.Len (queueMgr s) > 0)%Z →
       Marshal (song_queue.GetPlaylist (queueMgr (PopQueue s).2)) = inl out →
       queueSnapshot ∉ unwritable (disk s) →
       song_queue.playQueue (queueMgr (PopQueue s).2)
       = tail (song_queue.playQueue (queueMgr s))
       ∧ files (disk (PopQueue s).2) !! queueSnapshot = Some out)
  ∧ (∀ fname out,
       Marshal (song_queue.GetPlaylist (queueMgr s)) = inl out →
       Path fname ∉ unwritable (disk s) →
       (SavePlaylist fname s).1 = (mkError true "Success", None)
       ∧ files (disk (SavePlaylist fname s).2) !! Path fname = Some out
       ∧ ∀ other, other ≠ Path fname →
           files (disk (SavePlaylist fname s).2) !! other = files (disk s) !! other).
Proof.
  split; [|split].
  - intros sub out Hok Hout Hw.
    rewrite (SendSong_saves sub s Hok), (SavePlaylist_writes _ _ _ out) by done.
    apply lookup_insert_eq.
  - intros out Hlen. unfold PopQueue.
    unfold mbind, RPC_bind, mret, RPC_ret, queueMgr_Len.
    rewrite (proj2 (Z.gtb_lt _ _)) by lia.
    unfold queueMgr_PopQueue.
    destruct (PopQueue_queue (queueMgr s)) as [Hq _].
    destruct (song_queue.PopQueue (queueMgr s)) as [q song]; cbn [fst snd] in *.
    destruct (queueMgr_SavePlaylist_spec queueSnapshot (with_queueMgr q s))
      as (Hq2 & Hd2 & _).
    destruct (queueMgr_SavePlaylist queueSnapshot (with_queueMgr q s)) as [err s3].
    cbn [fst snd queueMgr disk with_queueMgr] in *.
    intros Hout Hw. rewrite Hq2 in Hout |- *. split; [done|].
    rewrite Hd2, (SavePlaylist_writes _ _ _ out); [|done|done].
    apply lookup_insert_eq.
  - intros fname out Hout Hw. unfold SavePlaylist.
    unfold mbind, RPC_bind, mret, RPC_ret.
    destruct (queueMgr_SavePlaylist_spec (Path fname) s) as (_ & Hd & Herr).
    destruct (queueMgr_SavePlaylist (Path fname) s) as [err s3].
    cbn [fst snd] in *.
    rewrite (SavePlaylist_writes _ _ _ out) in Hd, Herr by done.
    cbn [fst snd] in *. subst err. cbn [fst snd]. rewrite Hd. cbn [files].
    split; [done|]. split; [apply lookup_insert_eq|].
    intros other Hother. by apply lookup_insert_ne.
Qed.


(** C10: with an empty queue, [NextSong] still clears the playing song,
    hands the players a Next command with no song, and answers Success
    with a nil error. *)
Theorem NextSong_empty_queue s :
  song_queue.playQueue (queueMgr s) = [] →
  NextSong s
  = ((mkError true "Success", None),
     mkBackendServer (song_queue.mkFifoQueuer [] None) (dbManager s) (userCache s)
                     (playerMgr s ++ [mkPlayerControl CommandType_Next None])
                     (disk s)).
Proof.
  destruct s as [[q np] db cache sent fs]; cbn [queueMgr song_queue.playQueue].
  intros ->. reflexivity.
Qed.

End Server_properties.

(** ** The example codec decodes what it encodes *)
Section example_codec_properties.
Import example_codec.







End example_codec_properties.

(** ** The server properties on the example collaborators *)
Section Server_examples.
Import backend example.
#[local] Existing Instance example_codec.codec.

Lemma snapshot_written_witness :
  (let r := SendSong (mkSubmission "x9" 7) (server [A] None) in
   r.1 = (mkError true "Success", None)
   ∧ song_queue.playQueue (queueMgr r.2)
     = [A; mkSong "x9" 1 "ann" 7 "youtube" "x9"]
   ∧ files (disk r.2) !! queueSnapshot
     = Some (example_codec.encode_Playlist
               (mkPlaylist [A; mkSong "x9" 1 "ann" 7 "youtube" "x9"])))
  ∧ (let r := PopQueue (server [A; B] None) in
     r.1 = (Some A, None)
     ∧ files (disk r.2) !! queueSnapshot
       = Some (example_codec.encode_Playlist (mkPlaylist [B])))
  ∧ (let r := SavePlaylist (mkFilePath "/tmp/mine") (server [A; B] None) in
     r.1 = (mkError true "Success", None)
     ∧ files (disk r.2) !! "/tmp/mine"
       = Some (example_codec.encode_Playlist (mkPlaylist [A; B]))).
Proof.
  split; [|split].
  - destruct (snapshot_written (server [A] None)) as (Hsend & _ & _).
    split; [reflexivity|]. split; [reflexivity|].
    apply Hsend; [reflexivity|reflexivity|]. cbn. set_solver.
  - destruct (snapshot_written (server [A; B] None)) as (_ & Hpop & _).
    split; [reflexivity|].
    apply Hpop; [unfold song_queue.Len; cbn; lia|reflexivity|]. cbn. set_solver.
  - destruct (snapshot_written (server [A; B] None)) as (_ & _ & Hsave).
    split; [reflexivity|].
    apply (Hsave (mkFilePath "/tmp/mine")); [reflexivity|]. cbn. set_solver.
Defined.

(** C6, counterexample: the queue holds A and B and the snapshot is up to
    date. A skip pops A, and the snapshot still lists A and B: [NextSong]
    pops without saving. And an explicit save to another path, on a disk
    without a snapshot, leaves the snapshot location without a file. *)
Lemma NextSong_and_explicit_save_miss_snapshot :
  (let s := (SavePlaylist (mkFilePath queueSnapshot) (server [A; B] None)).2 in
   files (disk s) !! queueSnapshot
   = Some (example_codec.encode_Playlist (song_queue.GetPlaylist (queueMgr s)))
   ∧ (NextSong s).1 = (mkError true "Success", None)
   ∧ playerMgr (NextSong s).2 = [mkPlayerControl CommandType_Next (Some A)]
   ∧ song_queue.playQueue (queueMgr (NextSong s).2) = [B]
   ∧ files (disk (NextSong s).2) !! queueSnapshot
     = Some (example_codec.encode_Playlist (mkPlaylist [A; B]))
   ∧ files (disk (NextSong s).2) !! queueSnapshot
     ≠ Some (example_codec.encode_Playlist
               (song_queue.GetPlaylist (queueMgr (NextSong s).2))))
  ∧ (let r := SavePlaylist (mkFilePath "/tmp/mine") (server [A; B] None) in
     r.1 = (mkError true "Success", None)
     ∧ files (disk r.2) !! queueSnapshot = None).
Proof.
  split; [|by split].
  repeat (split; [reflexivity|]).
  vm_compute. discriminate.
Qed.


Lemma NextSong_empty_queue_witness :
  NextSong (server [] (Some A))
  = ((mkError true "Success", None),
     mkBackendServer (song_queue.mkFifoQueuer [] None) 0%N ∅
                     [mkPlayerControl CommandType_Next None] emptyDisk).
Proof. apply (NextSong_empty_queue (server [] (Some A))). reflexivity. Defined.

End Server_examples.

(** ** [WaitForMoreSongs] and [AddSong] as goroutines *)
Section goroutines_properties.
Import goroutines.

(** Run alone, [AddSong] does what the sequential [AddSong] does. *)
Lemma AddSong_alone (song : Song) (q : song_queue.FifoQueuer) :
  run [0; 0; 0; 0]%nat (start q [AddSong_Lock song])
  = Some (start (song_queue.AddSong song q) [Returned]).
Proof.
  unfold start, run, step; cbn.
  by destruct (length (song_queue.playQueue q ++ [song]) =? 1)%nat.
Qed.

(** With a song in the queue [WaitForMoreSongs] returns without waiting. *)
Lemma WaitForMoreSongs_nonempty (q : song_queue.FifoQueuer) :
  song_queue.playQueue q ≠ [] →
  run [0; 0; 0; 0]%nat (start q [Wait_Lock]) = Some (start q [Returned]).
Proof.
  destruct q as [[|front rest] np]; [done|]. reflexivity.
Qed.

(** A waiter that is suspended before the song arrives is woken by the
    [Broadcast] and returns. *)
Lemma WaitForMoreSongs_woken (song : Song) :
  run [0; 0; 0; 0; 1; 1; 1; 1; 0; 0; 0; 0]%nat
      (start song_queue.NewFifoQueuer [Wait_Lock; AddSong_Lock song])
  = Some (start (song_queue.AddSong song song_queue.NewFifoQueuer)
                [Returned; Returned]).
Proof. reflexivity. Qed.

(** C9, the missed wakeup: the waiter locks [cond.L] and finds the queue
    empty; before it calls [Wait], [AddSong] runs from start to end,
    taking the queue from length 0 to 1 and broadcasting to no one
    ([AddSong] never locks [cond.L]); then the waiter calls [Wait]. At the
    end the queue holds the song, [AddSong] has returned, the waiter is
    suspended and no goroutine can move. *)
Theorem WaitForMoreSongs_missed_wakeup (song : Song) :
  ∃ σ,
    run [0; 0; 0; 1; 1; 1; 1; 0]%nat
        (start song_queue.NewFifoQueuer [Wait_Lock; AddSong_Lock song]) = Some σ
    ∧ song_queue.Len (fifo σ) = 1%Z
    ∧ song_queue.playQueue (fifo σ) = [song]
    ∧ goroutine σ = [Wait_Parked; Returned]
    ∧ ∀ g, step g σ = None.
Proof.
  eexists. split; [reflexivity|]. repeat split.
  intros [|[|g]]; reflexivity.
Qed.

Lemma goto_lookup (g g' : nat) (p : pc) (gs : list pc) :
  g < length gs →
  goto g p gs !! g' = if decide (g = g') then Some p else gs !! g'.
Proof.
  intros Hg. unfold goto. destruct (decide (g = g')) as [<-|Hne].
  - by apply list_lookup_insert_eq.
  - by apply list_lookup_insert_ne.
Qed.

Lemma parked_for_good_step (w g : nat) (σ σ' : State) :
  parked_for_good w σ → step g σ = Some σ' → parked_for_good w σ'.
Proof.
  intros (Hw & Hlen & Hadd & Hbc) Hstep. unfold step in Hstep.
  destruct (goroutine σ !! g) as [p|] eqn:Hg; [|done]. cbn in Hstep.
  assert (g < length (goroutine σ)) as Hlt by (by eapply lookup_lt_Some).
  destruct (decide (g = w)) as [->|Hne]; [by simplify_eq|].
  pose proof (Hadd g p Hg Hne) as Hp.
  assert (∀ p' q l c, adding p' = true →
            (1 ≤ length (song_queue.playQueue q))%nat →
            (length (song_queue.playQueue (fifo σ)) ≤ length (song_queue.playQueue q))%nat →
            (p' = AddSong_Broadcast → (2 ≤ length (song_queue.playQueue q))%nat) →
            parked_for_good w (mkState q l c (goto g p' (goroutine σ)))) as Hkeep.
  { intros p' q l c Hp' Hq Hmono Hp'bc.
    repeat split; cbn [goroutine fifo].
    - rewrite goto_lookup by done. by rewrite decide_False.
    - done.
    - intros g' p''. rewrite goto_lookup by done.
      destruct (decide (g = g')); [by intros [= <-]|eauto].
    - intros g'. rewrite goto_lookup by done.
      destruct (decide (g = g')); [intros [= ->]; auto|].
      intros Hg'. specialize (Hbc g' Hg'). lia. }
  destruct p; try done; cbn in Hstep.
  - destruct (writer (lock σ) || negb (readers (lock σ) =? 0)%nat); [done|].
    simplify_eq. apply Hkeep; [done|done|done|done].
  - simplify_eq. apply Hkeep; cbn; rewrite ?length_app; cbn; [done|lia|lia|lia].
  - specialize (Hbc g Hg).
    destruct (length (song_queue.playQueue (fifo σ)) =? 1)%nat eqn:Hone.
    { apply Nat.eqb_eq in Hone. lia. }
    simplify_eq. apply Hkeep; [done|done|done|done].
  - simplify_eq. apply Hkeep; [done|done|done|done].
Qed.

Lemma parked_for_good_run (w : nat) (schedule : list nat) (σ σ' : State) :
  parked_for_good w σ → run schedule σ = Some σ' → parked_for_good w σ'.
Proof.
  revert σ; induction schedule as [|g rest IH]; intros σ Hσ; cbn [run].
  - by intros [= <-].
  - destruct (step g σ) as [σ1|] eqn:Hstep; [|done]. cbn.
    apply IH. by eapply parked_for_good_step.
Qed.

(** After the missed wakeup, whatever songs further calls of [AddSong]
    bring and however they are scheduled, the waiter stays suspended with
    a queue that is not empty. *)
Lemma WaitForMoreSongs_never_returns
    (song : Song) (songs : list Song) (schedule : list nat) (σ : State) :
  run ([0; 0; 0; 1; 1; 1; 1; 0]%nat ++ schedule)
      (start song_queue.NewFifoQueuer
             ([Wait_Lock; AddSong_Lock song] ++ (AddSong_Lock <$> songs))) = Some σ →
  goroutine σ !! 0%nat = Some Wait_Parked
  ∧ (1 ≤ song_queue.Len (fifo σ))%Z.
Proof.
  cbn [app run]. unfold start.
  repeat (match goal with
          | |- context [step ?g ?σ0] =>
              let r := eval cbn in (step g σ0) in change (step g σ0) with r
          end; cbn [mbind option_bind]).
  intros Hrun. eapply parked_for_good_run in Hrun as (Hw & Hlen & _).
  - split; [done|]. unfold song_queue.Len. lia.
  - assert (∀ g p, (wake <$> (AddSong_Lock <$> songs)) !! g = Some p →
                   adding p = true ∧ p ≠ AddSong_Broadcast) as Hrest.
    { intros g p. rewrite !list_lookup_fmap.
      destruct (songs !! g); cbn; [by intros [= <-]|done]. }
    repeat split; cbn [goroutine fifo song_queue.playQueue length].
    + lia.
    + intros [|[|g]] p; [done|by intros [= <-]|].
      intros Hp _. by apply (Hrest g p).
    + intros [|[|g]]; [done|done|].
      intros Hp. by destruct (Hrest g _ Hp).
Qed.

End goroutines_properties.

(** * Further properties *)

(** Closes [NoDup l] for a list [l] of numbers written out. *)
Ltac distinct_ids :=
  repeat (apply NoDup_cons_2;
          [ let Hin := fresh in
            intros Hin;
            repeat (apply elem_of_cons in Hin as [Hin|Hin]; [discriminate Hin|]);
            by apply elem_of_nil in Hin
          | ]);
  apply NoDup_nil_2.

(** ** The queuer: draining, removing, what is playing *)
Section FifoQueuer_more.
Import song_queue history.

Lemma RemoveSong_from_sublist (songId userId : uint32) (q : list Song) :
  (RemoveSong_from songId userId q).1 `sublist_of` q.
Proof.
  induction q as [|song next IH]; cbn [RemoveSong_from]; [done|].
  destruct (SongId song =? songId)%N.
  - destruct (UserId song =? userId)%N; cbn; [by apply sublist_cons | done].
  - destruct (RemoveSong_from songId userId next) as [next' err]; cbn in *.
    by apply sublist_skip.
Qed.

(** A call that returned nil took out one song with the two ids, the first
    with the song id. *)
Lemma RemoveSong_from_nil_inv (songId userId : uint32) (q q' : list Song) :
  RemoveSong_from songId userId q = (q', None) →
  ∃ pre s post,
    q = pre ++ s :: post ∧ q' = pre ++ post
    ∧ SongId s = songId ∧ UserId s = userId
    ∧ ∀ x, x ∈ pre → SongId x ≠ songId.
Proof.
  revert q'; induction q as [|song next IH]; intros q'; cbn [RemoveSong_from]; [done|].
  destruct (N.eqb_spec (SongId song) songId) as [Hid|Hid].
  - destruct (N.eqb_spec (UserId song) userId) as [Hu|Hu]; [|done].
    intros [= <-]. exists [], song, next. repeat split; try done.
    intros x Hx. by apply elem_of_nil in Hx.
  - destruct (RemoveSong_from songId userId next) as [next' err].
    intros [= <- ->].
    destruct (IH next' eq_refl) as (pre & s & post & -> & -> & Hs & Hu & Hpre).
    exists (song :: pre), s, post. repeat split; try done.
    intros x [->|Hx]%elem_of_cons; auto.
Qed.

(** A call that returned an error left the list as it was, and the error
    is one of the two messages. *)
Lemma RemoveSong_from_error_inv (songId userId : uint32) (q q' : list Song) (msg : error) :
  RemoveSong_from songId userId q = (q', Some msg) →
  q' = q ∧ (msg = PermissionDenied userId songId ∨ msg = NotFound songId).
Proof.
  revert q'; induction q as [|song next IH]; intros q'; cbn [RemoveSong_from].
  - intros [= <- <-]. auto.
  - destruct (SongId song =? songId)%N.
    + destruct (UserId song =? userId)%N; [done|]. intros [= <- <-]. auto.
    + destruct (RemoveSong_from songId userId next) as [next' err].
      intros [= <- ->]. destruct (IH next' eq_refl) as [-> Hmsg]. auto.
Qed.

(** As many pops as the queue is long return the playlist that
    [GetPlaylist] shows, front to back, and leave the queue empty: a
    further pop returns nothing. The last song popped is the one playing;
    with nothing to pop the playing song stays. *)
Theorem PopQueue_drains_in_playlist_order (fifo : FifoQueuer) :
  let r := perform_all (repeat call_PopQueue (Z.to_nat (Len fifo))) fifo in
  popped r.2 = Songs (GetPlaylist fifo)
  ∧ playQueue r.1 = []
  ∧ (PopQueue r.1).2 = None
  ∧ NowPlaying r.1 = from_option Some (NowPlaying fifo) (last (playQueue fifo)).
Proof.
  destruct fifo as [q np]. unfold Len, GetPlaylist, NowPlaying.
  cbn [playQueue nowPlaying Songs]. rewrite Nat2Z.id.
  revert np; induction q as [|front rest IH]; intros np; [done|].
  cbn [length repeat]. rewrite perform_all_cons. cbn [perform].
  rewrite PopQueue_cons. cbn [fst snd popped].
  destruct (IH (Some front)) as (Hpop & Hq & Hnone & Hnp).
  rewrite Hpop, Hq, Hnp, last_cons. repeat split; [done|].
  by destruct (last rest).
Qed.

(** Adding a song whose song id is not in the queue and removing it again,
    with its own song id and user id, gives back the queuer as it was. *)
Theorem AddSong_then_RemoveSong (song : Song) (fifo : FifoQueuer) :
  (∀ x, x ∈ playQueue fifo → SongId x ≠ SongId song) →
  RemoveSong (SongId song) (UserId song) (AddSong song fifo) = (fifo, None).
Proof.
  intros Hfresh. destruct fifo as [q np]. unfold RemoveSong, AddSong.
  cbn [playQueue nowPlaying] in *.
  rewrite (RemoveSong_from_first _ _ q [] song Hfresh eq_refl).
  by rewrite N.eqb_refl, app_nil_r.
Qed.

Lemma AddSong_then_RemoveSong_witness :
  RemoveSong 3 20 (AddSong example.C (mkFifoQueuer [example.A; example.B] (Some example.A')))
  = (mkFifoQueuer [example.A; example.B] (Some example.A'), None).
Proof.
  apply (AddSong_then_RemoveSong example.C
           (mkFifoQueuer [example.A; example.B] (Some example.A'))).
  intros x Hx. cbn in Hx.
  repeat (apply elem_of_cons in Hx as [->|Hx]; [discriminate|]).
  by apply elem_of_nil in Hx.
Defined.

(** When the song ids of the queue are pairwise distinct, a removal that
    succeeded leaves no song with that id: the same call again, by any
    user, answers NotFound and changes nothing. *)
Theorem RemoveSong_again_NotFound
    (songId userId userId' : uint32) (fifo fifo' : FifoQueuer) :
  NoDup (SongId <$> playQueue fifo) →
  RemoveSong songId userId fifo = (fifo', None) →
  (songId ∉ SongId <$> playQueue fifo')
  ∧ RemoveSong songId userId' fifo' = (fifo', Some (NotFound songId)).
Proof.
  intros Hnd. destruct fifo as [q np]. unfold RemoveSong at 1.
  cbn [playQueue nowPlaying] in *.
  destruct (RemoveSong_from songId userId q) as [q' err] eqn:Hrem.
  intros [= <- ->].
  destruct (RemoveSong_from_nil_inv _ _ _ _ Hrem)
    as (pre & s & post & -> & -> & Hs & _ & _).
  rewrite fmap_app, fmap_cons, Hs in Hnd.
  assert (songId ∉ SongId <$> (pre ++ post)) as Hgone.
  { rewrite fmap_app. apply NoDup_app in Hnd as (_ & Hdisj & Hpost).
    apply NoDup_cons in Hpost as [Hpost _].
    apply not_elem_of_app. split; [|done].
    intros Hin. apply (Hdisj _ Hin). left. }
  split; [done|]. unfold RemoveSong; cbn [playQueue nowPlaying].
  rewrite RemoveSong_from_absent; [done|].
  intros x Hx Hid. apply Hgone. rewrite <- Hid. by apply list_elem_of_fmap_2.
Qed.

Lemma RemoveSong_again_NotFound_witness :
  (2%N ∉ SongId <$> [example.A; example.C])
  ∧ RemoveSong 2 99 (mkFifoQueuer [example.A; example.C] None)
    = (mkFifoQueuer [example.A; example.C] None, Some (NotFound 2)).
Proof.
  apply (RemoveSong_again_NotFound 2 10 99
           (mkFifoQueuer [example.A; example.B; example.C] None)
           (mkFifoQueuer [example.A; example.C] None)).
  - cbn. distinct_ids.
  - reflexivity.
Defined.

(** A removal that fails, for either reason, leaves the queuer exactly as
    it was; one that succeeds takes the length down by one and keeps the
    other songs in their order. The playing song is the same in all
    cases. *)
Theorem RemoveSong_error_or_one_less (songId userId : uint32) (fifo : FifoQueuer) :
  match (RemoveSong songId userId fifo).2 with
  | Some msg =>
      (RemoveSong songId userId fifo).1 = fifo
      ∧ (msg = PermissionDenied userId songId ∨ msg = NotFound songId)
  | None =>
      Len (RemoveSong songId userId fifo).1 = (Len fifo - 1)%Z
      ∧ playQueue (RemoveSong songId userId fifo).1 `sublist_of` playQueue fifo
      ∧ NowPlaying (RemoveSong songId userId fifo).1 = NowPlaying fifo
  end.
Proof.
  destruct fifo as [q np]. unfold RemoveSong, Len, NowPlaying.
  cbn [playQueue nowPlaying].
  pose proof (RemoveSong_from_sublist songId userId q) as Hsub.
  pose proof (RemoveSong_from_length songId userId q) as Hlen.
  destruct (RemoveSong_from songId userId q) as [q' [msg|]] eqn:Hrem; cbn in *.
  - by destruct (RemoveSong_from_error_inv _ _ _ _ _ Hrem) as [-> Hmsg].
  - repeat split; [lia|done].
Qed.

(** As long as no song id is handed to [AddSong] twice, the playing song
    is not in the queue, and the songs of the queue have distinct ids. *)
Theorem NowPlaying_not_queued (cs : list call) :
  NoDup (SongId <$> added cs) →
  NoDup (SongId <$> playQueue (perform_all cs NewFifoQueuer).1)
  ∧ ∀ s, NowPlaying (perform_all cs NewFifoQueuer).1 = Some s →
         SongId s ∉ (SongId <$> playQueue (perform_all cs NewFifoQueuer).1).
Proof.
  assert (Hgen : ∀ cs fifo,
    NoDup (SongId <$> (option_list (nowPlaying fifo) ++ playQueue fifo ++ added cs)) →
    NoDup (SongId <$> (option_list (nowPlaying (perform_all cs fifo).1)
                       ++ playQueue (perform_all cs fifo).1))).
  { clear cs. induction cs as [|c cs IH]; intros fifo Hnd.
    - cbn in *. by rewrite app_nil_r in Hnd.
    - rewrite perform_all_cons; cbn [fst]. apply IH. clear IH.
      destruct c as [song| |songId userId]; cbn [perform added] in *.
      + cbn [fst AddSong playQueue nowPlaying]. by rewrite <- (app_assoc _ [song]).
      + destruct fifo as [[|front rest] np].
        * rewrite PopQueue_nil. cbn [fst playQueue nowPlaying option_list app] in *.
          rewrite fmap_app in Hnd. by apply NoDup_app in Hnd as (_ & _ & ?).
        * rewrite PopQueue_cons. cbn [fst playQueue nowPlaying option_list app] in *.
          rewrite fmap_app in Hnd. by apply NoDup_app in Hnd as (_ & _ & ?).
      + destruct fifo as [q np]. unfold RemoveSong. cbn [playQueue nowPlaying] in *.
        pose proof (RemoveSong_from_sublist songId userId q) as Hsub.
        destruct (RemoveSong_from songId userId q) as [q' err].
        cbn [fst playQueue nowPlaying] in *.
        eapply sublist_NoDup; [exact Hnd|].
        apply fmap_sublist, sublist_app; [done|]. by apply sublist_app. }
  intros Hnd. specialize (Hgen cs NewFifoQueuer Hnd).
  destruct (perform_all cs NewFifoQueuer).1 as [q np]; unfold NowPlaying; cbn in *.
  split.
  - rewrite fmap_app in Hgen. by apply NoDup_app in Hgen as (_ & _ & ?).
  - intros s ->. cbn in Hgen. by apply NoDup_cons in Hgen as [? _].
Qed.

Lemma NowPlaying_not_queued_witness :
  let cs := [call_AddSong example.A; call_AddSong example.B; call_PopQueue;
             call_AddSong example.C; call_RemoveSong 3 20; call_PopQueue] in
  NoDup (SongId <$> playQueue (perform_all cs NewFifoQueuer).1)
  ∧ ∀ s, NowPlaying (perform_all cs NewFifoQueuer).1 = Some s →
         SongId s ∉ (SongId <$> playQueue (perform_all cs NewFifoQueuer).1).
Proof.
  apply (NowPlaying_not_queued
           [call_AddSong example.A; call_AddSong example.B; call_PopQueue;
            call_AddSong example.C; call_RemoveSong 3 20; call_PopQueue]).
  cbn. distinct_ids.
Defined.

End FifoQueuer_more.

(** ** The server: pops, skips and what is playing *)
Section Server_more.
Import backend.
Context `{ProtoCodec} {Db : Type} `{DbManager Db} `{SongFetcher}
        `{DbUsers : !DbUserManager Db}.

Implicit Types (s : BackendServer (Db:=Db)) (fifo : song_queue.FifoQueuer).

Ltac rpc := unfold mbind, RPC_bind, mret, RPC_ret.


Lemma GetNowPlaying_spec s :
  GetNowPlaying s
  = ((Some (default emptySong (song_queue.NowPlaying (queueMgr s))), None), s).
Proof.
  unfold GetNowPlaying, queueMgr_NowPlaying; rpc.
  by destruct (song_queue.NowPlaying (queueMgr s)).
Qed.

Lemma NextSong_spec s :
  NextSong s
  = ((mkError true "Success", None),
     mkBackendServer
       (song_queue.mkFifoQueuer (tail (song_queue.playQueue (queueMgr s)))
                                (head (song_queue.playQueue (queueMgr s))))
       (dbManager s) (userCache s)
       (playerMgr s ++ [mkPlayerControl CommandType_Next
                          (head (song_queue.playQueue (queueMgr s)))])
       (disk s)).
Proof.
  destruct s as [[[|front rest] np] db cache sent fs]; [done|].
  unfold NextSong, queueMgr_PopQueue; rpc. cbn [queueMgr].
  by rewrite PopQueue_cons.
Qed.

Lemma tail_drop {A} (n : nat) (l : list A) : tail (drop n l) = drop (S n) l.
Proof. revert l; induction n as [|n IH]; intros [|x l]; cbn; auto. Qed.

Lemma head_drop {A} (n : nat) (l : list A) : head (drop n l) = l !! n.
Proof. revert l; induction n as [|n IH]; intros [|x l]; cbn; auto. Qed.

(** On an empty queue the [PopQueue] call answers with the empty song and
    changes nothing: unlike the queuer's [PopQueue] and unlike [NextSong]
    it leaves the playing song in place, and it writes no snapshot. *)
Theorem PopQueue_call_empty_queue s :
  song_queue.playQueue (queueMgr s) = [] →
  PopQueue s = ((Some emptySong, None), s)
  ∧ (GetNowPlaying (PopQueue s).2).1 = (GetNowPlaying s).1.
Proof.
  intros Hq. assert (PopQueue s = ((Some emptySong, None), s)) as ->; [|done].
  unfold PopQueue, queueMgr_Len, song_queue.Len; rpc. by rewrite Hq.
Qed.

(** After the [PopQueue] call has popped, [GetNowPlaying] answers with the
    song that the call returned, the front of the queue before the call. *)
Theorem GetNowPlaying_after_PopQueue s :
  (song_queue.Len (queueMgr s) > 0)%Z →
  (PopQueue s).1.1 = head (song_queue.playQueue (queueMgr s))
  ∧ (GetNowPlaying (PopQueue s).2).1 = (PopQueue s).1.
Proof.
  intros Hlen. rewrite GetNowPlaying_spec. cbn [fst].
  unfold PopQueue, queueMgr_Len; rpc.
  rewrite (proj2 (Z.gtb_lt _ _)) by lia.
  unfold queueMgr_PopQueue.
  destruct s as [[[|front rest] np] db cache sent fs];
    [unfold song_queue.Len in Hlen; cbn in Hlen; lia|].
  cbn [queueMgr]. rewrite PopQueue_cons.
  match goal with |- context [queueMgr_SavePlaylist ?p ?s2] =>
    destruct (queueMgr_SavePlaylist_spec p s2) as (Hq2 & _ & _);
    destruct (queueMgr_SavePlaylist p s2) as [err s3]
  end.
  cbn [fst snd] in *. by rewrite Hq2.
Qed.

(** In every state, the song that [NextSong] hands to the players is the
    song that is playing after the call: the front of the queue, or no
    song when the queue was empty. The call answers Success and writes no
    file. *)
Theorem NextSong_sends_what_plays s :
  (NextSong s).1 = (mkError true "Success", None)
  ∧ last (playerMgr (NextSong s).2)
    = Some (mkPlayerControl CommandType_Next
              (song_queue.NowPlaying (queueMgr (NextSong s).2)))
  ∧ song_queue.NowPlaying (queueMgr (NextSong s).2)
    = head (song_queue.playQueue (queueMgr s))
  ∧ song_queue.playQueue (queueMgr (NextSong s).2)
    = tail (song_queue.playQueue (queueMgr s))
  ∧ disk (NextSong s).2 = disk s.
Proof.
  rewrite NextSong_spec. cbn. by rewrite last_snoc.
Qed.

(** [n] skips in a row send the players the first [n] songs of the queue
    in order, and a command without song for every skip beyond the end of
    the queue; the queue loses its first [n] songs. *)
Theorem NextSong_repeated (n : nat) s :
  let s' := Nat.iter n (λ s, (NextSong s).2) s in
  playerMgr s'
  = playerMgr s
    ++ ((λ i, mkPlayerControl CommandType_Next
                (song_queue.playQueue (queueMgr s) !! i)) <$> seq 0 n)
  ∧ song_queue.playQueue (queueMgr s') = drop n (song_queue.playQueue (queueMgr s)).
Proof.
  induction n as [|n [IHsent IHq]]; cbn zeta in *.
  - cbn. by rewrite app_nil_r.
  - rewrite Nat.iter_succ.
    set (sn := Nat.iter n (λ s, (NextSong s).2) s) in *.
    rewrite NextSong_spec. cbn [snd playerMgr queueMgr song_queue.playQueue].
    rewrite IHsent, IHq, seq_S, fmap_app, tail_drop, head_drop.
    cbn. by rewrite <- app_assoc.
Qed.

(** The [RemoveSong] call answers Success with a nil error exactly when
    the queue is one shorter; otherwise the answer carries one of the two
    messages and the server is as before. In no case does the call write
    a file, send to the players or touch the playing song. *)
Theorem RemoveSong_call (eviction : Eviction) s :
  (RemoveSong eviction s).1.2 = None
  ∧ disk (RemoveSong eviction s).2 = disk s
  ∧ playerMgr (RemoveSong eviction s).2 = playerMgr s
  ∧ song_queue.NowPlaying (queueMgr (RemoveSong eviction s).2)
    = song_queue.NowPlaying (queueMgr s)
  ∧ match Success (RemoveSong eviction s).1.1 with
    | true =>
        Message (RemoveSong eviction s).1.1 = "Success"
        ∧ song_queue.Len (queueMgr (RemoveSong eviction s).2)
          = (song_queue.Len (queueMgr s) - 1)%Z
    | false =>
        (RemoveSong eviction s).2 = s
        ∧ (Message (RemoveSong eviction s).1.1
           = song_queue.PermissionDenied (ev_UserId eviction) (ev_SongId eviction)
           ∨ Message (RemoveSong eviction s).1.1
             = song_queue.NotFound (ev_SongId eviction))
    end.
Proof.
  unfold RemoveSong, queueMgr_RemoveSong, song_queue.RemoveSong; rpc.
  destruct s as [[q np] db cache sent fs].
  cbn [queueMgr song_queue.playQueue song_queue.nowPlaying].
  pose proof (RemoveSong_from_length (ev_SongId eviction) (ev_UserId eviction) q) as Hlen.
  destruct (song_queue.RemoveSong_from (ev_SongId eviction) (ev_UserId eviction) q)
    as [q' [msg|]] eqn:Hrem; cbn in *.
  - destruct (RemoveSong_from_error_inv _ _ _ _ _ Hrem) as [-> Hmsg]. by repeat split.
  - repeat split. unfold song_queue.Len; cbn. lia.
Qed.

(** *** Submissions and user names *)

Lemma getUsernameFromId_spec (userId : uint32) s :
  getUsernameFromId userId s
  = if (userId =? 0)%N then ("", s)
    else match userCache s !! userId with
         | Some username => (username, s)
         | None =>
             match db_GetUserById userId (dbManager s) with
             | inr _ => ("", s)
             | inl userData =>
                 (user_Username userData,
                  mkBackendServer (queueMgr s) (dbManager s)
                    (<[userId := user_Username userData]> (userCache s))
                    (playerMgr s) (disk s))
             end
         end.
Proof.
  unfold getUsernameFromId. destruct (userId =? 0)%N; [done|].
  unfold userCache_LookupUsername, dbManager_GetUserById; rpc.
  destruct (userCache s !! userId); [done|].
  by destruct (db_GetUserById userId (dbManager s)).
Qed.

Lemma getUsernameFromId_frame_all (userId : uint32) s :
  queueMgr (getUsernameFromId userId s).2 = queueMgr s
  ∧ dbManager (getUsernameFromId userId s).2 = dbManager s
  ∧ playerMgr (getUsernameFromId userId s).2 = playerMgr s
  ∧ disk (getUsernameFromId userId s).2 = disk s.
Proof.
  rewrite getUsernameFromId_spec. destruct (userId =? 0)%N; [done|].
  destruct (userCache s !! userId); [done|].
  by destruct (db_GetUserById userId (dbManager s)).
Qed.

Lemma SendSong_spec (sub : Submission) s :
  SendSong sub s
  = let '(username, s1) := getUsernameFromId (sub_UserId sub) s in
    if decide (username = "") then
      ((mkError false "Song submitted by unknown user", None), s1)
    else
      match fetchSongData (Link sub) (mkSong "" 0 username (sub_UserId sub) "" "") with
      | (_, Some err) => ((mkError false err, None), s1)
      | (song, None) =>
          let q := song_queue.mkFifoQueuer
                     (song_queue.playQueue (queueMgr s1)
                      ++ [(db_AddSong song (dbManager s1)).1])
                     (song_queue.nowPlaying (queueMgr s1)) in
          ((mkError true "Success", None),
           mkBackendServer q (db_AddSong song (dbManager s1)).2
                           (userCache s1) (playerMgr s1)
                           (song_queue.SavePlaylist queueSnapshot q (disk s1)).1)
      end.
Proof.
  unfold SendSong. unfold mbind at 1; unfold RPC_bind at 1. cbn [UserId].
  destruct (getUsernameFromId (sub_UserId sub) s) as [username s1].
  cbn [Title SongId Username UserId Service ServiceId].
  destruct (decide _); [done|].
  destruct (fetchSongData _ _) as [song [err|]]; [done|].
  unfold queueMgr_AddSong, dbManager_AddSong, queueMgr_SavePlaylist; rpc.
  cbn [queueMgr dbManager userCache playerMgr disk with_queueMgr
       song_queue.AddSong song_queue.playQueue song_queue.nowPlaying].
  destruct (db_AddSong song (dbManager s1)) as [song' db]. cbn [fst snd].
  rewrite removelast_last.
  by destruct (song_queue.SavePlaylist _ _ _).
Qed.

(** A submission that is turned down, for an unknown user or for a link
    that cannot be resolved, leaves the queue, the playing song, the
    database, the files and the players as they were. *)
Theorem SendSong_rejected_changes_nothing (sub : Submission) s :
  Success (SendSong sub s).1.1 = false →
  (SendSong sub s).1.2 = None
  ∧ queueMgr (SendSong sub s).2 = queueMgr s
  ∧ dbManager (SendSong sub s).2 = dbManager s
  ∧ playerMgr (SendSong sub s).2 = playerMgr s
  ∧ disk (SendSong sub s).2 = disk s.
Proof.
  rewrite SendSong_spec.
  destruct (getUsernameFromId_frame_all (sub_UserId sub) s) as (Hq & Hdb & Hp & Hd).
  destruct (getUsernameFromId (sub_UserId sub) s) as [username s1]; cbn [snd] in *.
  destruct (decide _); [done|].
  by destruct (fetchSongData _ _) as [song [err|]].
Qed.

(** A submission with user id 0, or by a user that is not in the cache
    and that the database does not return, is turned down as coming from
    an unknown user; not even the user cache changes. *)
Theorem SendSong_unknown_user (sub : Submission) s :
  sub_UserId sub = 0%N
  ∨ (userCache s !! sub_UserId sub = None
     ∧ ∃ err, db_GetUserById (sub_UserId sub) (dbManager s) = inr err) →
  SendSong sub s = ((mkError false "Song submitted by unknown user", None), s).
Proof.
  intros Hunknown. rewrite SendSong_spec, getUsernameFromId_spec.
  destruct Hunknown as [-> | (-> & err & ->)]; [done|].
  by destruct (sub_UserId sub =? 0)%N.
Qed.

(** A submission that is accepted puts exactly one song at the back of
    the queue: the song that [fetchSongData] resolved, as the database
    manager left it. The songs queued before and the playing song stay. *)
Theorem SendSong_accepted_appends (sub : Submission) s :
  Success (SendSong sub s).1.1 = true →
  (SendSong sub s).1 = (mkError true "Success", None)
  ∧ ∃ username song,
      fetchSongData (Link sub) (mkSong "" 0 username (sub_UserId sub) "" "")
      = (song, None)
      ∧ song_queue.playQueue (queueMgr (SendSong sub s).2)
        = song_queue.playQueue (queueMgr s) ++ [(db_AddSong song (dbManager s)).1]
      ∧ dbManager (SendSong sub s).2 = (db_AddSong song (dbManager s)).2
      ∧ song_queue.NowPlaying (queueMgr (SendSong sub s).2)
        = song_queue.NowPlaying (queueMgr s).
Proof.
  rewrite SendSong_spec.
  destruct (getUsernameFromId_frame_all (sub_UserId sub) s) as (Hq & Hdb & Hp & Hd).
  destruct (getUsernameFromId (sub_UserId sub) s) as [username s1]; cbn [snd] in *.
  destruct (decide _); [done|].
  destruct (fetchSongData _ _) as [song [err|]] eqn:Hfetch; [done|].
  intros _. split; [done|]. exists username, song.
  cbn. by rewrite Hq, Hdb.
Qed.

(** A user name that [getUsernameFromId] has found is in the user cache
    afterwards, and from then on the cache answers: whatever the database
    holds, the call returns that name and changes nothing. *)
Theorem getUsernameFromId_cached (userId : uint32) s :
  (getUsernameFromId userId s).1 ≠ "" →
  userCache (getUsernameFromId userId s).2 !! userId
  = Some (getUsernameFromId userId s).1
  ∧ ∀ s2, userCache s2 !! userId = Some (getUsernameFromId userId s).1 →
          getUsernameFromId userId s2 = ((getUsernameFromId userId s).1, s2).
Proof.
  rewrite !getUsernameFromId_spec.
  destruct (userId =? 0)%N eqn:Hzero; [done|].
  assert (∀ name s2, userCache s2 !! userId = Some name →
            getUsernameFromId userId s2 = (name, s2)) as Hhit.
  { intros name s2 Hs2. by rewrite getUsernameFromId_spec, Hzero, Hs2. }
  destruct (userCache s !! userId) as [name|] eqn:Hcache; cbn [fst snd].
  - intros _. split; [done|]. apply Hhit.
  - destruct (db_GetUserById userId (dbManager s)) as [userData|err]; [|done].
    cbn. intros _. split; [apply lookup_insert_eq|]. apply Hhit.
Qed.

(** *** Snapshot files: loading, restarting, saving on request *)

Lemma loadPlaylistFromFile_spec (file : string) s :
  loadPlaylistFromFile file s
  = (tt, match files (disk s) !! file with
         | None => s
         | Some in_ =>
             match Unmarshal in_ with
             | inr _ => s
             | inl playlist =>
                 mkBackendServer
                   (song_queue.mkFifoQueuer
                      (song_queue.playQueue (queueMgr s) ++ Songs playlist)
                      (song_queue.nowPlaying (queueMgr s)))
                   (dbManager s) (userCache s) (playerMgr s) (disk s)
             end
         end).
Proof.
  unfold loadPlaylistFromFile, ioutil_ReadFile, ReadFile; rpc.
  destruct (files (disk s) !! file) as [in_|]; [|done].
  destruct (Unmarshal in_) as [playlist|err]; [|done].
  apply loadSongs_spec.
Qed.



(** A file that is missing or that does not decode loads nothing: the
    server is as before, with no song of the file in the queue. *)
Theorem loadPlaylistFromFile_unreadable (file : string) s :
  files (disk s) !! file = None
  ∨ (∃ in_ err, files (disk s) !! file = Some in_ ∧ Unmarshal in_ = inr err) →
  loadPlaylistFromFile file s = (tt, s).
Proof.
  intros Hfile. rewrite loadPlaylistFromFile_spec.
  by destruct Hfile as [-> | (in_ & err & -> & ->)].
Qed.

(** A file that decodes to a playlist is loaded behind the songs already
    queued, in the order of the file, and nothing else changes; songs are
    not compared with the queue, so loading the file twice queues every
    song of it twice. *)
Theorem loadPlaylistFromFile_appends
    (file : string) (in_ : bytes) (playlist : Playlist) s :
  files (disk s) !! file = Some in_ →
  Unmarshal in_ = inl playlist →
  loadPlaylistFromFile file s
  = (tt, mkBackendServer
           (song_queue.mkFifoQueuer
              (song_queue.playQueue (queueMgr s) ++ Songs playlist)
              (song_queue.nowPlaying (queueMgr s)))
           (dbManager s) (userCache s) (playerMgr s) (disk s))
  ∧ song_queue.playQueue
      (queueMgr (loadPlaylistFromFile file (loadPlaylistFromFile file s).2).2)
    = song_queue.playQueue (queueMgr s) ++ Songs playlist ++ Songs playlist.
Proof.
  intros Hfile Hin. rewrite !loadPlaylistFromFile_spec. cbn [snd].
  rewrite Hfile, Hin. cbn [disk]. rewrite Hfile, Hin. cbn.
  by rewrite <- app_assoc.
Qed.



(** *** Logging in *)

(** Either the id of the answer is 0 and the cache is untouched, or the
    cache gained the returned id with the name. *)
Lemma LoginUser_cache_cases (user : User) s :
  (user_UserId (LoginUser user s).1.1 = 0%N
   ∧ userCache (LoginUser user s).2 = userCache s)
  ∨ userCache (LoginUser user s).2
    = <[user_UserId (LoginUser user s).1.1 := user_Username user]> (userCache s).
Proof.
  unfold LoginUser, LoginUser_cache, dbManager_GetUserById, dbManager_AddUser,
    dbManager_UpdateUsername, userCache_AddUserToCache; rpc.
  destruct (db_GetUserById (user_UserId user) (dbManager s)) as [userData|err].
  - destruct (decide _); [|cbn; split_and?; auto].
    destruct (db_UpdateUsername _ _ _) as [[err|] db]; cbn; split_and?; auto.
  - destruct (decide _); [|cbn; split_and?; auto].
    destruct (db_AddUser _ _) as [[userData|err'] db]; cbn; split_and?; auto.
Qed.

(** A login never touches the queue, the playing song, the players or the
    files; it echoes the user name with a nil error. It caches the name
    under the id it returns, and a failed login (id 0 for an error)
    caches nothing. *)
Theorem LoginUser_reply (user : User) s :
  user_Username (LoginUser user s).1.1 = user_Username user
  ∧ (LoginUser user s).1.2 = None
  ∧ queueMgr (LoginUser user s).2 = queueMgr s
  ∧ playerMgr (LoginUser user s).2 = playerMgr s
  ∧ disk (LoginUser user s).2 = disk s
  ∧ ((user_UserId (LoginUser user s).1.1 = 0%N
      ∧ userCache (LoginUser user s).2 = userCache s)
     ∨ userCache (LoginUser user s).2
       = <[user_UserId (LoginUser user s).1.1 := user_Username user]> (userCache s)).
Proof.
  unfold LoginUser, LoginUser_cache, dbManager_GetUserById, dbManager_AddUser,
    dbManager_UpdateUsername, userCache_AddUserToCache; rpc.
  destruct (db_GetUserById (user_UserId user) (dbManager s)) as [userData|err].
  - destruct (decide _); [|cbn; split_and?; auto].
    destruct (db_UpdateUsername _ _ _) as [[err|] db]; cbn; split_and?; auto.
  - destruct (decide _); [|cbn; split_and?; auto].
    destruct (db_AddUser _ _) as [[userData|err'] db]; cbn; split_and?; auto.
Qed.

(** After a login that returned an id other than 0, the user name of that
    id is served from the cache: [getUsernameFromId] returns the name of
    the login without any change of state. *)
Theorem getUsernameFromId_after_LoginUser (user : User) s :
  user_UserId (LoginUser user s).1.1 ≠ 0%N →
  getUsernameFromId (user_UserId (LoginUser user s).1.1) (LoginUser user s).2
  = (user_Username user, (LoginUser user s).2).
Proof.
  intros Hid. destruct (LoginUser_cache_cases user s) as [[Hzero _]|Hcache]; [done|].
  rewrite getUsernameFromId_spec, (proj2 (N.eqb_neq _ _) Hid), Hcache.
  by rewrite lookup_insert_eq.
Qed.

(** A user who has just logged in with a name that is not empty, and got
    an id other than 0, is not turned down as unknown: a submission with
    that id is accepted whenever [fetchSongData] resolves the link. *)
Theorem SendSong_after_LoginUser (user : User) (link : string) s :
  user_UserId (LoginUser user s).1.1 ≠ 0%N →
  user_Username user ≠ "" →
  (fetchSongData link (mkSong "" 0 (user_Username user)
                              (user_UserId (LoginUser user s).1.1) "" "")).2 = None →
  (SendSong (mkSubmission link (user_UserId (LoginUser user s).1.1))
            (LoginUser user s).2).1
  = (mkError true "Success", None).
Proof.
  intros Hid Hname Hfetch. destruct (LoginUser_cache_cases user s) as [[Hzero _]|Hcache]; [done|].
  rewrite SendSong_spec. cbn [sub_UserId Link].
  rewrite getUsernameFromId_spec, (proj2 (N.eqb_neq _ _) Hid), Hcache, lookup_insert_eq.
  rewrite decide_False by done.
  by destruct (fetchSongData _ _) as [song [err|]].
Qed.

(** What the database decides. A user that the database knows under the
    same name is logged in under the id of the database, without a write
    to the database. An error of [GetUserById] other than "no rows" fails
    the login: id 0, no user created, nothing cached. *)
Theorem LoginUser_without_database_write (user : User) s :
  (∀ userData,
     db_GetUserById (user_UserId user) (dbManager s) = inl userData →
     user_Username userData = user_Username user →
     LoginUser user s
     = ((mkUser (user_Username user) (user_UserId userData), None),
        mkBackendServer (queueMgr s) (dbManager s)
          (<[user_UserId userData := user_Username user]> (userCache s))
          (playerMgr s) (disk s)))
  ∧ (∀ err,
       db_GetUserById (user_UserId user) (dbManager s) = inr err →
       err ≠ sql_ErrNoRows →
       LoginUser user s = ((mkUser (user_Username user) 0, None), s)).
Proof.
  unfold LoginUser, LoginUser_cache, dbManager_GetUserById, userCache_AddUserToCache; rpc.
  split.
  - intros userData -> Hname. by rewrite decide_False by (by intros []).
  - intros err -> Herr. by rewrite decide_False.
Qed.

End Server_more.

(** *** The further server properties on the example collaborators *)
Section Server_more_examples.
Import backend example.
#[local] Existing Instance example_codec.codec.

Lemma PopQueue_call_empty_queue_witness :
  PopQueue (server [] (Some A)) = ((Some emptySong, None), server [] (Some A))
  ∧ (GetNowPlaying (PopQueue (server [] (Some A))).2).1
    = (GetNowPlaying (server [] (Some A))).1.
Proof. apply (PopQueue_call_empty_queue (server [] (Some A))). reflexivity. Defined.

Lemma GetNowPlaying_after_PopQueue_witness :
  (PopQueue (server [B; C] (Some A))).1.1 = Some B
  ∧ (GetNowPlaying (PopQueue (server [B; C] (Some A))).2).1
    = (PopQueue (server [B; C] (Some A))).1.
Proof.
  apply (GetNowPlaying_after_PopQueue (server [B; C] (Some A))).
  unfold song_queue.Len; cbn; lia.
Defined.

Lemma SendSong_rejected_changes_nothing_witness :
  let r := SendSong (mkSubmission "" 7) (server [A] (Some B)) in
  r.1.2 = None
  ∧ queueMgr r.2 = song_queue.mkFifoQueuer [A] (Some B)
  ∧ dbManager r.2 = 0%N
  ∧ playerMgr r.2 = []
  ∧ disk r.2 = emptyDisk.
Proof.
  apply (SendSong_rejected_changes_nothing (mkSubmission "" 7) (server [A] (Some B))).
  reflexivity.
Defined.

Lemma SendSong_unknown_user_witness :
  SendSong (mkSubmission "x9" 5) (server [A] None)
  = ((mkError false "Song submitted by unknown user", None), server [A] None).
Proof.
  apply (SendSong_unknown_user (mkSubmission "x9" 5) (server [A] None)).
  right. split; [reflexivity|]. by eexists.
Defined.

Lemma SendSong_accepted_appends_witness :
  (SendSong (mkSubmission "x9" 7) (server [A] (Some B))).1
  = (mkError true "Success", None).
Proof.
  apply (SendSong_accepted_appends (mkSubmission "x9" 7) (server [A] (Some B))).
  reflexivity.
Defined.

Lemma getUsernameFromId_cached_witness :
  userCache (getUsernameFromId 7 (server [] None)).2 !! 7%N = Some "ann"
  ∧ ∀ s2 : BackendServer (Db:=N),
      userCache s2 !! 7%N = Some "ann" → getUsernameFromId 7 s2 = ("ann", s2).
Proof.
  assert ((getUsernameFromId 7 (server [] None)).1 ≠ "") as Hname
    by (vm_compute; discriminate).
  exact (getUsernameFromId_cached 7 (server [] None) Hname).
Defined.

Lemma loadPlaylistFromFile_unreadable_witness :
  loadPlaylistFromFile "/tmp/none" (server [A] None) = (tt, server [A] None).
Proof.
  apply (loadPlaylistFromFile_unreadable "/tmp/none" (server [A] None)).
  left. reflexivity.
Defined.

Lemma loadPlaylistFromFile_appends_witness :
  let s := mkBackendServer (song_queue.mkFifoQueuer [C] None) 0%N ∅ []
             (mkFileSystem
                {[ "/tmp/list" := example_codec.encode_Playlist (mkPlaylist [A; B]) ]} ∅) in
  song_queue.playQueue
    (queueMgr (loadPlaylistFromFile "/tmp/list"
                 (loadPlaylistFromFile "/tmp/list" s).2).2)
  = [C; A; B; A; B].
Proof.
  intros s.
  apply (loadPlaylistFromFile_appends "/tmp/list"
           (example_codec.encode_Playlist (mkPlaylist [A; B])) (mkPlaylist [A; B]) s);
    reflexivity.
Defined.


Lemma getUsernameFromId_after_LoginUser_witness :
  getUsernameFromId 8 (LoginUser (mkUser "cy" 0) (server [] None)).2
  = ("cy", (LoginUser (mkUser "cy" 0) (server [] None)).2).
Proof.
  assert (user_UserId (LoginUser (mkUser "cy" 0) (server [] None)).1.1 ≠ 0%N) as Hid
    by (vm_compute; discriminate).
  exact (getUsernameFromId_after_LoginUser (mkUser "cy" 0) (server [] None) Hid).
Defined.

Lemma SendSong_after_LoginUser_witness :
  (SendSong (mkSubmission "x9" 8) (LoginUser (mkUser "cy" 0) (server [] None)).2).1
  = (mkError true "Success", None).
Proof.
  assert (user_UserId (LoginUser (mkUser "cy" 0) (server [] None)).1.1 ≠ 0%N) as Hid
    by (vm_compute; discriminate).
  exact (SendSong_after_LoginUser (mkUser "cy" 0) "x9" (server [] None) Hid
           ltac:(discriminate) eq_refl).
Defined.

End Server_more_examples.

(** ** Goroutines: when a waiter returns *)
Section goroutines_more.
Import goroutines.

Lemma seen_song_wake (gs : list pc) (g : nat) (p : pc) :
  (wake <$> gs) !! g = Some p → seen_song p = true →
  gs !! g = Some p.
Proof.
  rewrite list_lookup_fmap. destruct (gs !! g) as [p'|]; [|done].
  cbn. intros [= <-]. by destruct p'.
Qed.

Lemma seen_song_step (g : nat) (σ σ' : State) :
  (∀ g p, goroutine σ !! g = Some p → seen_song p = true →
          (1 ≤ length (song_queue.playQueue (fifo σ)))%nat) →
  step g σ = Some σ' →
  ∀ g p, goroutine σ' !! g = Some p → seen_song p = true →
         (1 ≤ length (song_queue.playQueue (fifo σ')))%nat.
Proof.
  intros Hinv Hstep. unfold step in Hstep.
  destruct (goroutine σ !! g) as [p0|] eqn:Hg; [|done]. cbn in Hstep.
  assert (g < length (goroutine σ)) as Hlt by (by eapply lookup_lt_Some).
  assert (∀ pnew q' l c gs',
            gs' = goroutine σ ∨ gs' = wake <$> goroutine σ →
            (length (song_queue.playQueue (fifo σ)) ≤ length (song_queue.playQueue q'))%nat →
            (seen_song pnew = true → (1 ≤ length (song_queue.playQueue q'))%nat) →
            ∀ g' p, goroutine (mkState q' l c (goto g pnew gs')) !! g' = Some p →
                    seen_song p = true →
                    (1 ≤ length (song_queue.playQueue (fifo (mkState q' l c (goto g pnew gs')))))%nat)
    as Hkeep.
  { intros pnew q' l c gs' Hgs' Hmono Hnew g' p. cbn [goroutine fifo].
    rewrite goto_lookup by (destruct Hgs' as [->| ->]; by rewrite ?length_fmap).
    destruct (decide (g = g')) as [_|_]; [intros [= <-]; auto|].
    intros Hp Hseen. etrans; [|exact Hmono].
    destruct Hgs' as [->| ->]; [eauto|].
    eapply Hinv; [|done]. by apply seen_song_wake. }
  pose proof (Hinv g p0 Hg) as Hself.
  destruct p0; try done; cbn in Hstep.
  - destruct (writer (lock σ) || negb (readers (lock σ) =? 0)%nat); [done|].
    simplify_eq. apply Hkeep; [by left|done|done].
  - simplify_eq. apply Hkeep; [by left| |]; cbn; rewrite length_app; cbn; lia.
  - destruct (length (song_queue.playQueue (fifo σ)) =? 1)%nat;
      simplify_eq; (apply Hkeep; [auto|done|auto]).
  - simplify_eq. apply Hkeep; [by left|done|auto].
  - destruct (cLock σ); [done|]. simplify_eq. apply Hkeep; [by left|done|done].
  - destruct (writer (lock σ)); [done|]. simplify_eq. apply Hkeep; [by left|done|done].
  - simplify_eq. apply Hkeep; [by left|done|].
    destruct (length (song_queue.playQueue (fifo σ)) =? 0)%nat eqn:Hzero; [done|].
    apply Nat.eqb_neq in Hzero. lia.
  - simplify_eq. apply Hkeep; [by left|done|done].
  - destruct (cLock σ); [done|]. simplify_eq. apply Hkeep; [by left|done|done].
  - simplify_eq. apply Hkeep; [by left|done|auto].
Qed.

(** From a start where every goroutine is at the entry of [AddSong] or of
    [WaitForMoreSongs], whatever the schedule: a goroutine is past the
    loop of [WaitForMoreSongs], or has returned from it, only when the
    queue holds a song. No waiter returns on an empty queue. *)
Theorem WaitForMoreSongs_returns_with_a_song
    (q : song_queue.FifoQueuer) (gs : list pc) (schedule : list nat) (σ : State) :
  Forall (λ p, at_entry p = true) gs →
  run schedule (start q gs) = Some σ →
  ∀ g p, goroutine σ !! g = Some p → seen_song p = true →
         song_queue.playQueue (fifo σ) ≠ [].
Proof.
  intros Hgs Hrun.
  assert (Hinv : ∀ g p, goroutine σ !! g = Some p → seen_song p = true →
                        (1 ≤ length (song_queue.playQueue (fifo σ)))%nat).
  { assert (Hstart : ∀ g p, goroutine (start q gs) !! g = Some p → seen_song p = true →
                       (1 ≤ length (song_queue.playQueue (fifo (start q gs))))%nat).
    { cbn. intros g p Hg Hp. eapply Forall_lookup_1 in Hgs; [|done]. by destruct p. }
    revert Hstart Hrun. generalize (start q gs) as σ0.
    induction schedule as [|g rest IH]; intros σ0 Hσ0; cbn [run].
    - by intros [= <-].
    - destruct (step g σ0) as [σ1|] eqn:Hstep; [|done]. cbn.
      apply IH. by eapply seen_song_step. }
  intros g p Hg Hp Hnil. specialize (Hinv g p Hg Hp). rewrite Hnil in Hinv. cbn in Hinv. lia.
Qed.

Lemma WaitForMoreSongs_returns_with_a_song_witness :
  from_option
    (λ σ, goroutine σ !! 1%nat = Some Returned
          ∧ song_queue.playQueue (fifo σ) ≠ [])
    False
    (run [1; 1; 1; 1; 0; 0; 0; 0; 1; 1; 1; 1]%nat
         (start song_queue.NewFifoQueuer [AddSong_Lock example.A; Wait_Lock])).
Proof.
  destruct (run [1; 1; 1; 1; 0; 0; 0; 0; 1; 1; 1; 1]%nat
              (start song_queue.NewFifoQueuer [AddSong_Lock example.A; Wait_Lock]))
    as [σ|] eqn:Hrun; [|by vm_compute in Hrun].
  assert (goroutine σ !! 1%nat = Some Returned) as Hg
    by (vm_compute in Hrun; by simplify_eq).
  split; [done|].
  apply (WaitForMoreSongs_returns_with_a_song song_queue.NewFifoQueuer
           [AddSong_Lock example.A; Wait_Lock]
           [1; 1; 1; 1; 0; 0; 0; 0; 1; 1; 1; 1]%nat σ
           ltac:(by repeat constructor) Hrun 1%nat Returned Hg eq_refl).
Defined.

(** A goroutine that enters [WaitForMoreSongs] while the queue holds a
    song, [cond.L] is free and no writer holds the lock of the queue goes
    through in four moves of its own: it never waits, and it leaves the
    queue and both locks as they were. *)
Theorem WaitForMoreSongs_returns_at_once (g : nat) (σ : State) :
  goroutine σ !! g = Some Wait_Lock →
  cLock σ = false →
  writer (lock σ) = false →
  song_queue.playQueue (fifo σ) ≠ [] →
  run [g; g; g; g] σ
  = Some (mkState (fifo σ) (lock σ) false (<[g := Returned]> (goroutine σ))).
Proof.
  destruct σ as [[q np] [w r] c gs]. cbn [goroutine cLock lock writer fifo
    song_queue.playQueue]. intros Hg -> -> Hq.
  assert (g < length gs) as Hlt by (by eapply lookup_lt_Some).
  destruct q as [|front rest]; [done|].
  cbn [run]. unfold step, goto.
  do 4 (cbn [mbind option_bind goroutine cLock lock writer readers fifo
             song_queue.playQueue length Nat.eqb pred];
        rewrite ?Hg, ?list_lookup_insert_eq by (by rewrite ?length_insert)).
  cbn [mbind option_bind goroutine cLock lock writer readers fifo
       song_queue.playQueue length Nat.eqb pred].
  by rewrite !list_insert_insert_eq.
Qed.

Lemma WaitForMoreSongs_returns_at_once_witness :
  run [1; 1; 1; 1]%nat
      (mkState (song_queue.mkFifoQueuer [example.A] None) (mkRWMutex false 2) false
               [Wait_Parked; Wait_Lock; AddSong_Lock example.B])
  = Some (mkState (song_queue.mkFifoQueuer [example.A] None) (mkRWMutex false 2) false
                  [Wait_Parked; Returned; AddSong_Lock example.B]).
Proof.
  apply (WaitForMoreSongs_returns_at_once 1
           (mkState (song_queue.mkFifoQueuer [example.A] None) (mkRWMutex false 2) false
                    [Wait_Parked; Wait_Lock; AddSong_Lock example.B]));
    [reflexivity|reflexivity|reflexivity|discriminate].
Defined.

Lemma WaitForMoreSongs_never_returns_witness :
  from_option
    (λ σ, goroutine σ !! 0%nat = Some Wait_Parked ∧ (1 ≤ song_queue.Len (fifo σ))%Z)
    False
    (run ([0; 0; 0; 1; 1; 1; 1; 0] ++ [2; 2; 2; 2; 3; 3; 3; 3])%nat
         (start song_queue.NewFifoQueuer
                ([Wait_Lock; AddSong_Lock example.A]
                 ++ (AddSong_Lock <$> [example.B; example.C])))).
Proof.
  destruct (run ([0; 0; 0; 1; 1; 1; 1; 0] ++ [2; 2; 2; 2; 3; 3; 3; 3])%nat
              (start song_queue.NewFifoQueuer
                     ([Wait_Lock; AddSong_Lock example.A]
                      ++ (AddSong_Lock <$> [example.B; example.C]))))
    as [σ|] eqn:Hrun; [|by vm_compute in Hrun].
  apply (WaitForMoreSongs_never_returns example.A [example.B; example.C]
           [2; 2; 2; 2; 3; 3; 3; 3]%nat σ Hrun).
Defined.

End goroutines_more.

(** ** Saving on request and logging in, on the example collaborators *)
Section Server_call_examples.
Import backend example.
#[local] Existing Instance example_codec.codec.


Lemma LoginUser_without_database_write_witness :
  LoginUser (mkUser "ann" 7) (server [A] None)
  = ((mkUser "ann" 7, None),
     mkBackendServer (song_queue.mkFifoQueuer [A] None) 0%N {[ 7%N := "ann" ]} []
                     emptyDisk).
Proof.
  destruct (LoginUser_without_database_write (mkUser "ann" 7) (server [A] None))
    as [Hknown _].
  exact (Hknown (mkUser "ann" 7) eq_refl eq_refl).
Defined.

End Server_call_examples.

(** ** Goroutines: [GetPlaylist] while the queue changes *)
Section playlist_goroutines_properties.
Import playlist_goroutines.

(** With no writer on the lock of the queue and no move of another
    goroutine in between, [GetPlaylist] returns the songs of the queue,
    front to back and without a nil entry, as the sequential method does,
    and leaves the queue and the locks as they were. *)
Theorem GetPlaylist_uncontended (g : nat) (σ : State) :
  goroutine σ !! g = Some GetPlaylist_make →
  goroutines.writer (lock σ) = false →
  run [g; g; g; g] σ
  = Some (mkState (fifo σ) (lock σ) (npLock σ)
            (<[g := GetPlaylist_returned
                      (Some <$> Songs (song_queue.GetPlaylist (fifo σ)))]>
               (goroutine σ))).
Proof.
  destruct σ as [q [w r] np gs].
  cbn [goroutine lock fifo npLock goroutines.writer song_queue.GetPlaylist Songs].
  intros Hg ->.
  assert (g < length gs) as Hlt by (by eapply lookup_lt_Some).
  cbn [run]. unfold step, goto.
  do 6 (cbn [mbind option_bind goroutine lock fifo npLock
             goroutines.writer goroutines.readers pred];
        rewrite ?Hg, ?list_lookup_insert_eq, ?Nat.leb_refl, ?Nat.sub_diag
          by (by rewrite ?length_insert)).
  cbn [mbind option_bind goroutine lock fifo npLock
       goroutines.writer goroutines.readers pred replicate].
  by rewrite !list_insert_insert_eq, app_nil_r.
Qed.

Lemma GetPlaylist_uncontended_witness :
  run [1; 1; 1; 1]%nat
      (mkState (song_queue.mkFifoQueuer [example.A; example.B] None)
               (goroutines.mkRWMutex false 1) true
               [PopQueue_clear; GetPlaylist_make])
  = Some (mkState (song_queue.mkFifoQueuer [example.A; example.B] None)
                  (goroutines.mkRWMutex false 1) true
                  [PopQueue_clear;
                   GetPlaylist_returned [Some example.A; Some example.B]]).
Proof.
  apply (GetPlaylist_uncontended 1
           (mkState (song_queue.mkFifoQueuer [example.A; example.B] None)
                    (goroutines.mkRWMutex false 1) true
                    [PopQueue_clear; GetPlaylist_make]));
    reflexivity.
Defined.

(** A song added between the sizing of the slice and the read lock makes
    [GetPlaylist] index past the end of its slice: whatever the queue and
    the song, when [AddSong] runs right after [GetPlaylist] has made the
    slice, the copy loop panics. *)
Theorem GetPlaylist_panics_after_AddSong (q : song_queue.FifoQueuer) (song : Song) :
  run [0; 1; 1; 1; 0; 0]%nat (start q [GetPlaylist_make; AddSong_Lock song])
  = Some (start (song_queue.AddSong song q) [GetPlaylist_panicked; AddSong_returned]).
Proof.
  unfold start, song_queue.AddSong. cbn [run]. unfold step, goto. cbn.
  rewrite length_app. cbn [length].
  by rewrite (proj2 (Nat.leb_gt _ _)) by lia.
Qed.

(** A song popped between the sizing of the slice and the read lock
    leaves a nil entry: when [PopQueue] runs right after [GetPlaylist] has
    made the slice for a queue that is not empty, the playlist returned
    holds the songs that remain, followed by one nil. *)
Theorem GetPlaylist_nil_entry_after_PopQueue
    (front : Song) (rest : list Song) (np : option Song) :
  run [0; 1; 1; 1; 1; 1; 1; 0; 0; 0]%nat
      (start (song_queue.mkFifoQueuer (front :: rest) np)
             [GetPlaylist_make; PopQueue_npLock])
  = Some (start (song_queue.PopQueue (song_queue.mkFifoQueuer (front :: rest) np)).1
                [GetPlaylist_returned ((Some <$> rest) ++ [None]);
                 PopQueue_returned (Some front)]).
Proof.
  rewrite PopQueue_cons. unfold start. cbn [run]. unfold step, goto. cbn.
  rewrite (proj2 (Nat.leb_le _ _)) by lia.
  by replace (S (length rest) - length rest)%nat with 1%nat by lia.
Qed.

End playlist_goroutines_properties.
